(** * schema_lint: validation of historical division YAML files

    Shallow embedding of [tools/schema_lint.py] and the properties of its
    loader and of its three validation passes.

    Conventions of the embedding.
    - A value built by [yaml.safe_load] is a [yaml] term; a Python [dict]
      is the list of its items in insertion order.
    - [errors: List[str]] is threaded explicitly: a function that appends
      to it takes the list and returns the extended list.
    - An error message is the f-string template that produced it together
      with the values interpolated into it ([error]); two messages are the
      same message when template and values agree. [message_text] gives
      the string: [repr] of a str and of bytes are taken as given, and the
      order in which a process goes through a set is a parameter of the
      text, since it follows the hash seed of the process.
    - The output of [main] is, for each stream, the texts of its [print]
      calls; a text may hold line breaks.
    - An uncaught Python exception is the [Raise] outcome. *)

From Stdlib Require Import List String Ascii ZArith Bool Lia Arith.
From Stdlib Require Decimal DecimalString.
From Stdlib Require Import Permutation Sorted OrderedTypeEx.
Import ListNotations.
Local Open Scope string_scope.
Local Open Scope list_scope.

Set Implicit Arguments.

(** ** Calendar dates ([datetime.date]) *)

Record date := mkDate { year : Z; month : Z; day : Z }.

Definition date_min : date := mkDate 1 1 1.
Definition date_max : date := mkDate 9999 12 31.

Definition is_leap (y : Z) : bool :=
  ((y mod 4 =? 0) && (negb (y mod 100 =? 0) || (y mod 400 =? 0)))%Z.

Definition days_in_month (y m : Z) : Z :=
  if (m =? 2)%Z then (if is_leap y then 29 else 28)%Z
  else if ((m =? 4) || (m =? 6) || (m =? 9) || (m =? 11))%Z then 30%Z
  else 31%Z.

(** The values [datetime.date] can hold. *)
Definition date_valid (d : date) : bool :=
  ((1 <=? year d) && (year d <=? 9999) && (1 <=? month d) && (month d <=? 12)
   && (1 <=? day d) && (day d <=? days_in_month (year d) (month d)))%Z.

(** [a < b], [a <= b], [a > b] on dates: year, then month, then day. *)
Definition date_ltb (a b : date) : bool :=
  ((year a <? year b)
   || ((year a =? year b)
       && ((month a <? month b) || ((month a =? month b) && (day a <? day b)))))%Z.

Definition date_eqb (a b : date) : bool :=
  ((year a =? year b) && (month a =? month b) && (day a =? day b))%Z.

Definition date_leb (a b : date) : bool := date_ltb a b || date_eqb a b.
Definition date_gtb (a b : date) : bool := date_ltb b a.

(** [max(a, b)] of Python: [b] only when it is strictly greater. *)
Definition date_maximum (a b : date) : date := if date_ltb a b then b else a.

(** ** Values of [yaml.safe_load]

    A set lists its items in the order the loader put them in; the order
    in which a process iterates or prints a set is another matter, see
    [set_order] below. A set holds hashable values only, never a list, a
    mapping or a set. Tuples come as the entries of [!!pairs] and [!!omap]
    sequences. *)

#[local] Unset Elimination Schemes.
Inductive yaml : Type :=
| YNull
| YBool (b : bool)
| YInt (z : Z)
| YFloat (nonzero : bool) (text : string) (* a float: its truth value and its repr *)
| YStr (s : string)
| YDate (d : date)
| YDateTime (d : date) (clock : string)
    (* a datetime: its date, and its time of day and zone as repr writes
       them after the date, as in "21, 59, 43" *)
| YList (items : list yaml)
| YMap (items : list (yaml * yaml))
| YBytes (b : string)              (* bytes, from [!!binary] *)
| YSet (items : list yaml)         (* a set, from [!!set] *)
| YTuple (items : list yaml).      (* a tuple *)
#[local] Set Elimination Schemes.

Definition ydict := list (yaml * yaml).

(** Truth value of a Python object ([x or y], [if x]). *)
Definition truthy (v : yaml) : bool :=
  match v with
  | YNull => false
  | YBool b => b
  | YInt z => negb (z =? 0)%Z
  | YFloat nz _ => nz
  | YStr s => negb (s =? EmptyString)
  | YDate _ => true
  | YDateTime _ _ => true
  | YList l => match l with [] => false | _ => true end
  | YMap l => match l with [] => false | _ => true end
  | YBytes b => negb (b =? EmptyString)
  | YSet l => match l with [] => false | _ => true end
  | YTuple l => match l with [] => false | _ => true end
  end.

(** Lookup of a [str] key in a dict. A dict holds a key once; on a list
    that is not a dict's item list the first entry is taken. *)
Fixpoint dict_find (key : string) (d : ydict) : option yaml :=
  match d with
  | [] => None
  | (YStr k, v) :: rest => if k =? key then Some v else dict_find key rest
  | _ :: rest => dict_find key rest
  end.

(** [d.get(key)]: the value, or [None]. *)
Definition dict_get (d : ydict) (key : string) : yaml :=
  match dict_find key d with Some v => v | None => YNull end.

(** [d.get(key, default)]. *)
Definition dict_get_default (d : ydict) (key : string) (default : yaml) : yaml :=
  match dict_find key d with Some v => v | None => default end.

(** ** Paths

    A [pathlib.Path] is the list of its parts; paths are ordered part by
    part, each part as a string. *)

Definition Path := list string.

Section Lex.
Variable A : Type.
Variable cmp : A -> A -> comparison.

Fixpoint lex_compare (l1 l2 : list A) : comparison :=
  match l1, l2 with
  | [], [] => Eq
  | [], _ :: _ => Lt
  | _ :: _, [] => Gt
  | x :: l1', y :: l2' =>
      match cmp x y with
      | Eq => lex_compare l1' l2'
      | c => c
      end
  end.
End Lex.

Definition path_compare : Path -> Path -> comparison := lex_compare String.compare.
Definition path_ltb (p q : Path) : bool :=
  match path_compare p q with Lt => true | _ => false end.

(** ** Error messages *)

Inductive context : Type :=
| CtxDivision (yaml_path : Path) (div_id : string)
    (* f"{yaml_path} ({div_id})" *)
| CtxField (file : Path) (div_id : string) (field : string).
    (* f"{source.file} ({source.id}) {field}" *)

Inductive error : Type :=
| ErrDateType (ctx : context) (value : yaml)
    (* "{context}: expected ISO date string or null, got {value!r}" *)
| ErrDateInvalid (ctx : context) (value : string) (exc : string)
    (* "{context}: invalid date '{value}': {exc}" *)
| ErrParentType (ctx : context) (value : yaml)
    (* "{context}: parent must be string or null, got {value!r}" *)
| ErrRelationDict (ctx : context) (item : yaml)
    (* "{context}: relation dict missing string 'id' field: {item!r}" *)
| ErrRelationItem (ctx : context) (item : yaml)
    (* "{context}: expected string or mapping with id, got {item!r}" *)
| ErrRelationType (ctx : context) (value : yaml)
    (* "{context}: expected list, got {type(value).__name__}" *)
| ErrYaml (yaml_path : Path) (exc : string)
    (* "{yaml_path}: failed to parse YAML: {exc}" *)
| ErrMissingId (yaml_path : Path) (block : yaml)
    (* "{yaml_path}: division missing string id: {block}" *)
| ErrDuplicateId (yaml_path : Path) (div_id : string) (first_file : Path)
    (* "{yaml_path}: duplicate division id '{div_id}' also defined in {file}" *)
| ErrMissingParent (file : Path) (div_id : string)
    (* "{div.file} ({div.id}): missing parent reference" *)
| ErrParentNotFound (file : Path) (div_id : string) (parent : string)
    (* "{div.file} ({div.id}): parent '{parent}' not found in dataset" *)
| ErrInvertedRange (file : Path) (div_id : string) (from_date to_date : date)
    (* "{div.file} ({div.id}): from date {from} is after to date {to}" *)
| ErrOverlap (base : string) (file : Path) (div_id : string)
             (from_date last_to : date)
    (* "Timeline overlap for {base}: {div.file} ({div.id}) starts {from}
        before previous ended {last_to}" *)
| ErrUnknownId (file : Path) (div_id : string) (field : string) (target_id : string)
    (* "{source.file} ({source.id}): {field} references unknown id '{target_id}'" *)
| ErrLineageMismatch (file : Path) (div_id : string) (field : string)
                     (target_id : string) (counterpart : string).
    (* "Lineage mismatch: {source.file} ({source.id}) {field} -> {target_id}
        without reciprocal {counterpart}" *)

(** ** Uncaught exceptions *)

Inductive exn : Type :=
| AttributeError | TypeError | UnicodeDecodeError
| OSError | ValueError | RecursionError.

Inductive outcome (A : Type) : Type :=
| Ret (a : A)
| Raise (e : exn).
Arguments Ret {A} a.
Arguments Raise {A} e.

Definition bind {A B : Type} (m : outcome A) (k : A -> outcome B) : outcome B :=
  match m with
  | Ret a => k a
  | Raise e => Raise e
  end.

Notation "x <- m ;; k" := (bind m (fun x => k))
  (at level 61, m at next level, right associativity).

(** ** The Division record *)

Module Division.
Record t : Type := make {
  id : string;
  file : Path;
  parent : option string;
  from_date : option date;
  to_date : option date;
  base_id : string;
  raw : ydict
}.
End Division.

(** [Dict[str, Division]], in insertion order. *)
Definition divisions_t := list (string * Division.t).

Fixpoint divisions_get (ds : divisions_t) (key : string) : option Division.t :=
  match ds with
  | [] => None
  | (k, v) :: rest => if k =? key then Some v else divisions_get rest key
  end.

Definition divisions_mem (key : string) (ds : divisions_t) : bool :=
  match divisions_get ds key with Some _ => true | None => false end.

(** [divisions[key] = v]: a new key goes last, a held key keeps its place. *)
Fixpoint divisions_set (ds : divisions_t) (key : string) (v : Division.t) : divisions_t :=
  match ds with
  | [] => [(key, v)]
  | (k, v0) :: rest =>
      if k =? key then (k, v) :: rest else (k, v0) :: divisions_set rest key v
  end.

Definition divisions_values (ds : divisions_t) : list Division.t := map snd ds.
Definition divisions_keys (ds : divisions_t) : list string := map fst ds.

(** ** Field normalization *)

Definition normalize_parent (value : yaml) (ctx : context) (errors : list error)
  : option string * list error :=
  match value with
  | YNull => (None, errors)
  | YBool b => (Some (if b then "YES" else "NO"), errors)
  | YStr s => (Some s, errors)
  | _ => (None, errors ++ [ErrParentType ctx value])
  end.

(** One turn of the loop over the items of a relation list. *)
Definition relation_item (ctx : context) (item : yaml)
           (st : list string * list error) : list string * list error :=
  let '(ids, errors) := st in
  match item with
  | YStr s => (ids ++ [s], errors)
  | YMap d =>
      match dict_find "id" d with
      | Some (YStr s) => (ids ++ [s], errors)
      | _ => (ids, errors ++ [ErrRelationDict ctx item])
      end
  | _ => (ids, errors ++ [ErrRelationItem ctx item])
  end.

Definition normalize_relation (value : yaml) (ctx : context) (errors : list error)
  : list string * list error :=
  match value with
  | YNull => ([], errors)
  | YList items => fold_left (fun st item => relation_item ctx item st) items ([], errors)
  | _ => ([], errors ++ [ErrRelationType ctx value])
  end.

(** ** Sorting

    [sorted] and [list.sort] are stable and compare keys with [<] only;
    for a total order on keys the stable arrangement is unique, and
    insertion from the right computes it. *)

Section Sort.
Variables (A K : Type).
Variable key : A -> K.
Variable ltb : K -> K -> bool.

Fixpoint insert_sorted (x : A) (l : list A) : list A :=
  match l with
  | [] => [x]
  | y :: l' => if ltb (key y) (key x) then y :: insert_sorted x l' else x :: l
  end.

Definition sort_by (l : list A) : list A := fold_right insert_sorted [] l.
End Sort.

(** ** The loader *)

(** What reading and parsing one file gives. *)
Inductive file_content : Type :=
| NotUtf8                     (* read_text raises UnicodeDecodeError *)
| Unreadable                  (* read_text raises OSError: a directory named
                                 *.yaml, a dangling link, no permission *)
| BadYaml (exc : string)      (* safe_load raises a YAMLError *)
| LoadRaises (e : exn)        (* safe_load raises an exception that is no
                                 YAMLError: ValueError for a date that does
                                 not exist, RecursionError *)
| Parsed (v : yaml).          (* safe_load returns v *)

(** [div_id.rsplit(":", 1)[0]] *)
Fixpoint has_colon (s : string) : bool :=
  match s with
  | EmptyString => false
  | String c rest => if Ascii.eqb c ":"%char then true else has_colon rest
  end.

Fixpoint rsplit_colon_head (s : string) : string :=
  match s with
  | EmptyString => EmptyString
  | String c rest =>
      if has_colon rest then String c (rsplit_colon_head rest)
      else if Ascii.eqb c ":"%char then EmptyString
      else s
  end.

(** [x.get] on a value: an attribute of dicts only. *)
Definition as_dict (v : yaml) : outcome ydict :=
  match v with
  | YMap d => Ret d
  | _ => Raise AttributeError
  end.

Fixpoint chars (s : string) : list yaml :=
  match s with
  | EmptyString => []
  | String c rest => YStr (String c EmptyString) :: chars rest
  end.

Fixpoint byte_values (s : string) : list yaml :=
  match s with
  | EmptyString => []
  | String c rest => YInt (Z.of_N (N_of_ascii c)) :: byte_values rest
  end.

(** [for block in v]: the items of a list or a tuple, the keys of a dict,
    the characters of a string, the byte values of bytes, the items of a
    set; other values are not iterable. The items of a set are no
    mappings, so the order in which they come does not show: the first of
    them ends the loop. *)
Definition iterate (v : yaml) : outcome (list yaml) :=
  match v with
  | YList items => Ret items
  | YMap d => Ret (map fst d)
  | YStr s => Ret (chars s)
  | YBytes b => Ret (byte_values b)
  | YSet items => Ret items
  | YTuple items => Ret items
  | _ => Raise TypeError
  end.

Definition loader_state : Type := divisions_t * list error.

Section Loader.

(** [date.fromisoformat] on a [str]: the date, or the text of the
    [ValueError] it raises. *)
Variable fromisoformat : string -> date + string.

Definition parse_date (value : yaml) (ctx : context) (errors : list error)
  : option date * list error :=
  match value with
  | YNull => (None, errors)
  | YDateTime d _ => (Some d, errors)
  | YDate d => (Some d, errors)
  | YStr s =>
      match fromisoformat s with
      | inl d => (Some d, errors)
      | inr exc => (None, errors ++ [ErrDateInvalid ctx s exc])
      end
  | _ => (None, errors ++ [ErrDateType ctx value])
  end.

(** The body of the loop over the blocks of one file. *)
Definition collect_block (yaml_path : Path) (block : yaml) (st : loader_state)
  : outcome loader_state :=
  let '(divisions, errors) := st in
  d <- as_dict block ;;
  match dict_get d "id" with
  | YStr div_id =>
      match divisions_get divisions div_id with
      | Some first =>
          Ret (divisions,
               errors ++ [ErrDuplicateId yaml_path div_id (Division.file first)])
      | None =>
          let ctx := CtxDivision yaml_path div_id in
          let '(from_date, errors1) := parse_date (dict_get d "from") ctx errors in
          let '(to_date, errors2) := parse_date (dict_get d "to") ctx errors1 in
          let base_id := rsplit_colon_head div_id in
          let '(parent, errors3) := normalize_parent (dict_get d "parent") ctx errors2 in
          Ret (divisions_set divisions div_id
                 (Division.make div_id yaml_path parent from_date to_date base_id d),
               errors3)
      end
  | _ => Ret (divisions, errors ++ [ErrMissingId yaml_path block])
  end.

Fixpoint collect_blocks (yaml_path : Path) (blocks : list yaml) (st : loader_state)
  : outcome loader_state :=
  match blocks with
  | [] => Ret st
  | block :: rest =>
      st' <- collect_block yaml_path block st ;;
      collect_blocks yaml_path rest st'
  end.

(** The body of the loop over the files. *)
Definition collect_file (f : Path * file_content) (st : loader_state)
  : outcome loader_state :=
  let '(yaml_path, content) := f in
  match content with
  | NotUtf8 => Raise UnicodeDecodeError
  | Unreadable => Raise OSError
  | BadYaml exc => Ret (fst st, snd st ++ [ErrYaml yaml_path exc])
  | LoadRaises e => Raise e
  | Parsed v =>
      let data := if truthy v then v else YMap [] in
      d <- as_dict data ;;
      let listed := dict_get_default d "divisions" (YList []) in
      blocks <- iterate (if truthy listed then listed else YList []) ;;
      collect_blocks yaml_path blocks st
  end.

Fixpoint collect_files (files : list (Path * file_content)) (st : loader_state)
  : outcome loader_state :=
  match files with
  | [] => Ret st
  | f :: rest =>
      st' <- collect_file f st ;;
      collect_files rest st'
  end.

(** [country_root] is what [rglob("*.yaml")] finds under the directory,
    in the order the file system gives, each path with what reading and
    parsing it gives. *)
Definition collect_divisions (country_root : list (Path * file_content))
           (errors : list error) : outcome loader_state :=
  collect_files (sort_by fst path_ltb country_root) ([], errors).

End Loader.

(** ** Parent links *)

Definition str_mem (s : string) (l : list string) : bool := existsb (String.eqb s) l.

Definition parent_link_check (valid_ids : list string) (div : Division.t)
           (errors : list error) : list error :=
  match Division.parent div with
  | None => errors ++ [ErrMissingParent (Division.file div) (Division.id div)]
  | Some parent =>
      if negb (parent =? "NO") && negb (str_mem parent valid_ids)
      then errors ++ [ErrParentNotFound (Division.file div) (Division.id div) parent]
      else errors
  end.

Definition validate_parent_links (divisions : divisions_t) (errors : list error)
  : list error :=
  let valid_ids := divisions_keys divisions in
  fold_left (fun errs div => parent_link_check valid_ids div errs)
            (divisions_values divisions) errors.

(** ** Dates *)

(** [Dict[str, List[Division]]], in insertion order. *)
Definition groups_t := list (string * list Division.t).

(** [groups.setdefault(base, []).append(div)] *)
Fixpoint groups_append (groups : groups_t) (base : string) (div : Division.t) : groups_t :=
  match groups with
  | [] => [(base, [div])]
  | (k, l) :: rest =>
      if k =? base then (k, l ++ [div]) :: rest
      else (k, l) :: groups_append rest base div
  end.

(** The body of the first loop of [validate_dates]. *)
Definition group_and_check (div : Division.t) (st : groups_t * list error)
  : groups_t * list error :=
  let '(groups, errors) := st in
  let groups' := groups_append groups (Division.base_id div) div in
  match Division.from_date div, Division.to_date div with
  | Some f, Some t =>
      if date_gtb f t
      then (groups', errors ++ [ErrInvertedRange (Division.file div) (Division.id div) f t])
      else (groups', errors)
  | _, _ => (groups', errors)
  end.

(** [(d.from_date or date.min, d.to_date or date.max)] *)
Definition sort_key (d : Division.t) : date * date :=
  (match Division.from_date d with Some f => f | None => date_min end,
   match Division.to_date d with Some t => t | None => date_max end).

(** [<] on pairs of dates. *)
Definition key_ltb (a b : date * date) : bool :=
  if date_eqb (fst a) (fst b) then date_ltb (snd a) (snd b)
  else date_ltb (fst a) (fst b).

(** The body of the loop over a sorted group: the state is [last_to] and
    the error list. *)
Definition overlap_step (base : string) (div : Division.t)
           (st : option date * list error) : option date * list error :=
  let '(last_to, errors) := st in
  let errors' :=
    match last_to, Division.from_date div with
    | Some lt, Some f =>
        if date_leb f lt
        then errors ++ [ErrOverlap base (Division.file div) (Division.id div) f lt]
        else errors
    | _, _ => errors
    end in
  (Some (match Division.to_date div with Some t => t | None => date_max end), errors').

Definition walk_group (base : string) (subset : list Division.t)
           (st : option date * list error) : option date * list error :=
  fold_left (fun st div => overlap_step base div st) subset st.

Definition check_group (errors : list error) (g : string * list Division.t) : list error :=
  let '(base, subset) := g in
  snd (walk_group base (sort_by sort_key key_ltb subset) (None, errors)).

(** The first loop of [validate_dates]. *)
Definition group_divisions (divisions : divisions_t) (errors : list error)
  : groups_t * list error :=
  fold_left (fun st div => group_and_check div st)
            (divisions_values divisions) ([], errors).

Definition validate_dates (divisions : divisions_t) (errors : list error) : list error :=
  let '(groups, errors1) := group_divisions divisions errors in
  fold_left check_group groups errors1.

(** ** Lineage *)

Definition check_target (divisions : divisions_t) (source : Division.t)
           (field counterpart : string) (target_id : string)
           (errors : list error) : list error :=
  match divisions_get divisions target_id with
  | None =>
      errors ++ [ErrUnknownId (Division.file source) (Division.id source) field target_id]
  | Some target =>
      let '(other_ids, errors1) :=
        normalize_relation (dict_get (Division.raw target) counterpart)
          (CtxField (Division.file target) (Division.id target) counterpart) errors in
      if negb (str_mem (Division.id source) other_ids)
      then errors1 ++ [ErrLineageMismatch (Division.file source) (Division.id source)
                                          field target_id counterpart]
      else errors1
  end.

Definition check_relation (divisions : divisions_t) (source : Division.t)
           (field counterpart : string) (errors : list error) : list error :=
  let '(ids, errors1) :=
    normalize_relation (dict_get (Division.raw source) field)
      (CtxField (Division.file source) (Division.id source) field) errors in
  fold_left (fun errs target_id =>
               check_target divisions source field counterpart target_id errs)
            ids errors1.

Definition validate_lineage (divisions : divisions_t) (errors : list error) : list error :=
  fold_left (fun errs div =>
               check_relation divisions div "became" "was"
                 (check_relation divisions div "was" "became" errs))
            (divisions_values divisions) errors.

(** The three passes, in the order [main] calls them. *)
Definition validate_all (divisions : divisions_t) (errors : list error) : list error :=
  validate_lineage divisions
    (validate_dates divisions
       (validate_parent_links divisions errors)).

(** ** The text of a message *)

Local Open Scope string_scope.

Definition newline : string := String (ascii_of_nat 10) EmptyString.

Definition decimal (z : Z) : string :=
  DecimalString.NilZero.string_of_int (Z.to_int z).
Definition decimal_nat (n : nat) : string :=
  DecimalString.NilZero.string_of_uint (Nat.to_uint n).

Fixpoint zeros (n : nat) : string :=
  match n with
  | O => EmptyString
  | S n' => String "0" (zeros n')
  end.

(** A number in at least [width] digits. *)
Definition padded (width : nat) (z : Z) : string :=
  zeros (width - String.length (decimal z)) ++ decimal z.

(** [str(d)] of a date: year-month-day. *)
Definition date_str (d : date) : string :=
  padded 4 (year d) ++ "-" ++ padded 2 (month d) ++ "-" ++ padded 2 (day d).

(** [str(p)] of a path: its parts joined by slashes, after the root if it
    has one. *)
Definition path_str (p : Path) : string :=
  match p with
  | [] => "."
  | root :: rest =>
      if (root =? "/") || (root =? "//")
      then root ++ String.concat "/" rest
      else String.concat "/" p
  end.

(** [type(v).__name__] *)
Definition type_name (v : yaml) : string :=
  match v with
  | YNull => "NoneType"
  | YBool _ => "bool"
  | YInt _ => "int"
  | YFloat _ _ => "float"
  | YStr _ => "str"
  | YDate _ => "date"
  | YDateTime _ _ => "datetime"
  | YList _ => "list"
  | YMap _ => "dict"
  | YBytes _ => "bytes"
  | YSet _ => "set"
  | YTuple _ => "tuple"
  end.

Section Text.

(** [repr] of a str and of bytes: quotes and escapes. *)
Variable repr_str : string -> string.
Variable repr_bytes : string -> string.

(** The order in which the running process goes through a set, as the
    positions of its items: it follows the hashes of the items, and the
    hash of a string follows the hash seed of the process. *)
Variable set_order : list yaml -> list nat.

(** [repr(v)] *)
Fixpoint repr (v : yaml) : string :=
  match v with
  | YNull => "None"
  | YBool b => if b then "True" else "False"
  | YInt z => decimal z
  | YFloat _ text => text
  | YStr s => repr_str s
  | YDate d =>
      "datetime.date(" ++ decimal (year d) ++ ", " ++ decimal (month d)
        ++ ", " ++ decimal (day d) ++ ")"
  | YDateTime d clock =>
      "datetime.datetime(" ++ decimal (year d) ++ ", " ++ decimal (month d)
        ++ ", " ++ decimal (day d) ++ ", " ++ clock ++ ")"
  | YList items => "[" ++ String.concat ", " (map repr items) ++ "]"
  | YMap items =>
      "{" ++ String.concat ", "
               (map (fun kv => let '(k, x) := kv in repr k ++ ": " ++ repr x) items)
          ++ "}"
  | YBytes b => repr_bytes b
  | YSet items =>
      match items with
      | [] => "set()"
      | _ =>
          let shown := map repr items in
          "{" ++ String.concat ", "
                   (map (fun i => nth i shown EmptyString) (set_order items))
              ++ "}"
      end
  | YTuple items =>
      match items with
      | [x] => "(" ++ repr x ++ ",)"
      | _ => "(" ++ String.concat ", " (map repr items) ++ ")"
      end
  end.

Definition context_str (ctx : context) : string :=
  match ctx with
  | CtxDivision yaml_path div_id => path_str yaml_path ++ " (" ++ div_id ++ ")"
  | CtxField file div_id field =>
      path_str file ++ " (" ++ div_id ++ ") " ++ field
  end.

(** The string appended to [errors]. The block of a missing-id message is
    a dict, whose [str] is its [repr]. *)
Definition message_text (e : error) : string :=
  match e with
  | ErrDateType ctx value =>
      context_str ctx ++ ": expected ISO date string or null, got " ++ repr value
  | ErrDateInvalid ctx value exc =>
      context_str ctx ++ ": invalid date '" ++ value ++ "': " ++ exc
  | ErrParentType ctx value =>
      context_str ctx ++ ": parent must be string or null, got " ++ repr value
  | ErrRelationDict ctx item =>
      context_str ctx ++ ": relation dict missing string 'id' field: " ++ repr item
  | ErrRelationItem ctx item =>
      context_str ctx ++ ": expected string or mapping with id, got " ++ repr item
  | ErrRelationType ctx value =>
      context_str ctx ++ ": expected list, got " ++ type_name value
  | ErrYaml yaml_path exc =>
      path_str yaml_path ++ ": failed to parse YAML: " ++ exc
  | ErrMissingId yaml_path block =>
      path_str yaml_path ++ ": division missing string id: " ++ repr block
  | ErrDuplicateId yaml_path div_id first_file =>
      path_str yaml_path ++ ": duplicate division id '" ++ div_id
        ++ "' also defined in " ++ path_str first_file
  | ErrMissingParent file div_id =>
      path_str file ++ " (" ++ div_id ++ "): missing parent reference"
  | ErrParentNotFound file div_id parent =>
      path_str file ++ " (" ++ div_id ++ "): parent '" ++ parent
        ++ "' not found in dataset"
  | ErrInvertedRange file div_id from_date to_date =>
      path_str file ++ " (" ++ div_id ++ "): from date " ++ date_str from_date
        ++ " is after to date " ++ date_str to_date
  | ErrOverlap base file div_id from_date last_to =>
      "Timeline overlap for " ++ base ++ ": " ++ path_str file ++ " (" ++ div_id
        ++ ") starts " ++ date_str from_date ++ " before previous ended "
        ++ date_str last_to
  | ErrUnknownId file div_id field target_id =>
      path_str file ++ " (" ++ div_id ++ "): " ++ field
        ++ " references unknown id '" ++ target_id ++ "'"
  | ErrLineageMismatch file div_id field target_id counterpart =>
      "Lineage mismatch: " ++ path_str file ++ " (" ++ div_id ++ ") " ++ field
        ++ " -> " ++ target_id ++ " without reciprocal " ++ counterpart
  end.

(** [print(f" - {issue}", file=sys.stderr)] *)
Definition issue_print (e : error) : string := " - " ++ message_text e.

End Text.

(** A value that holds no set, at any depth. *)
Fixpoint set_free (v : yaml) : bool :=
  match v with
  | YSet _ => false
  | YList items => forallb set_free items
  | YTuple items => forallb set_free items
  | YMap items =>
      forallb (fun kv => let '(k, x) := kv in set_free k && set_free x) items
  | _ => true
  end.

(** A message whose text prints no set. *)
Definition message_set_free (e : error) : bool :=
  match e with
  | ErrDateType _ value => set_free value
  | ErrParentType _ value => set_free value
  | ErrRelationDict _ item => set_free item
  | ErrRelationItem _ item => set_free item
  | ErrMissingId _ block => set_free block
  | _ => true
  end.

(** Induction on values, through the lists they hold. *)
Section YamlInduction.
Variable P : yaml -> Prop.
Hypothesis HNull : P YNull.
Hypothesis HBool : forall b, P (YBool b).
Hypothesis HInt : forall z, P (YInt z).
Hypothesis HFloat : forall nz text, P (YFloat nz text).
Hypothesis HStr : forall s, P (YStr s).
Hypothesis HDate : forall d, P (YDate d).
Hypothesis HDateTime : forall d clock, P (YDateTime d clock).
Hypothesis HList : forall items, Forall P items -> P (YList items).
Hypothesis HMap :
  forall items, Forall (fun kv => P (fst kv) /\ P (snd kv)) items -> P (YMap items).
Hypothesis HBytes : forall b, P (YBytes b).
Hypothesis HSet : forall items, Forall P items -> P (YSet items).
Hypothesis HTuple : forall items, Forall P items -> P (YTuple items).

Fixpoint yaml_induction (v : yaml) : P v :=
  let all :=
    fix all (l : list yaml) : Forall P l :=
      match l with
      | [] => Forall_nil P
      | x :: rest => Forall_cons x (yaml_induction x) (all rest)
      end in
  match v with
  | YNull => HNull
  | YBool b => HBool b
  | YInt z => HInt z
  | YFloat nz text => HFloat nz text
  | YStr s => HStr s
  | YDate d => HDate d
  | YDateTime d clock => HDateTime d clock
  | YList items => @HList items (all items)
  | YMap items =>
      @HMap items
        ((fix pairs (l : list (yaml * yaml))
            : Forall (fun kv => P (fst kv) /\ P (snd kv)) l :=
            match l with
            | [] => Forall_nil _
            | (k, x) :: rest =>
                Forall_cons (k, x) (conj (yaml_induction k) (yaml_induction x))
                            (pairs rest)
            end) items)
  | YBytes b => HBytes b
  | YSet items => @HSet items (all items)
  | YTuple items => @HTuple items (all items)
  end.
End YamlInduction.

(** ** The program *)

(** What a run leaves: its exit status, and for each stream the texts of
    the [print] calls in their order. [print] ends its text with a line
    break; the text may hold line breaks of its own. *)
Record run : Type := mkRun {
  exit_code : Z;
  stdout : list string;
  stderr : list string
}.

Fixpoint line_breaks (s : string) : nat :=
  match s with
  | EmptyString => O
  | String c rest =>
      (if Ascii.eqb c (ascii_of_nat 10) then 1 else 0) + line_breaks rest
  end.

(** The lines a stream shows for the given prints. *)
Definition stream_lines (prints : list string) : nat :=
  list_sum (map (fun s => S (line_breaks s)) prints).

Definition header_print : string := "Schema lint found issues:".

Definition not_found_print (country_path : Path) : string :=
  "Country directory not found: " ++ path_str country_path.

Definition ok_print (count : nat) (country_path : Path) : string :=
  "OK: " ++ decimal_nat count ++ " divisions validated in " ++ path_str country_path.

Section Main.
Variable fromisoformat : string -> date + string.
Variable repr_str : string -> string.
Variable repr_bytes : string -> string.
Variable set_order : list yaml -> list nat.

(** [listing] is [None] when [country_path] does not exist, and
    otherwise what [rglob] finds under it. *)
Definition main (country_path : Path)
           (listing : option (list (Path * file_content))) : outcome run :=
  match listing with
  | None => Ret (mkRun 2 [] [not_found_print country_path])
  | Some country_root =>
      st <- collect_divisions fromisoformat country_root [] ;;
      let '(divisions, errors0) := st in
      match validate_all divisions errors0 with
      | [] => Ret (mkRun 0 [ok_print (List.length divisions) country_path] [])
      | errors =>
          Ret (mkRun 1 []
                 (header_print
                  :: map (issue_print repr_str repr_bytes set_order) errors))
      end
  end.
End Main.

Local Open Scope list_scope.

(** ** Derived notions used in the statements *)

(** The model the loader builds holds each identifier once and files each
    Division under its own identifier. *)
Definition model_ok (divisions : divisions_t) : Prop :=
  NoDup (divisions_keys divisions) /\
  divisions_keys divisions = map Division.id (divisions_values divisions).

(** The Division a parent-link message is about. *)
Definition parent_error_id (e : error) : option string :=
  match e with
  | ErrMissingParent _ i => Some i
  | ErrParentNotFound _ i _ => Some i
  | _ => None
  end.

Definition parent_error_of (div_id : string) (e : error) : bool :=
  match parent_error_id e with
  | Some i => i =? div_id
  | None => false
  end.

(** The two concrete Divisions of the overlap example. *)
Definition example_R1 (file : Path) (parent : option string) (raw : ydict) : Division.t :=
  Division.make "R:1" file parent
    (Some (mkDate 2000 1 1)) (Some (mkDate 2005 12 31)) (rsplit_colon_head "R:1") raw.

Definition example_R2 (from_date : date) (file : Path) (parent : option string)
           (raw : ydict) : Division.t :=
  Division.make "R:2" file parent (Some from_date) None (rsplit_colon_head "R:2") raw.

(** The blocks the loop over one file's divisions runs through. *)
Definition file_blocks (content : file_content) : outcome (list yaml) :=
  match content with
  | NotUtf8 => Raise UnicodeDecodeError
  | Unreadable => Raise OSError
  | BadYaml _ => Ret []
  | LoadRaises e => Raise e
  | Parsed v =>
      d <- as_dict (if truthy v then v else YMap []) ;;
      let listed := dict_get_default d "divisions" (YList []) in
      iterate (if truthy listed then listed else YList [])
  end.

Definition is_mapping (v : yaml) : bool :=
  match v with YMap _ => true | _ => false end.

(** A file the loader gets through: reading it raises nothing, the parser
    raises nothing but a YAMLError, and if it parses, its top-level value
    is empty or a mapping whose divisions are absent, empty or a sequence
    of mappings. *)
Definition loadable (f : Path * file_content) : bool :=
  match file_blocks (snd f) with
  | Ret blocks => forallb is_mapping blocks
  | Raise _ => false
  end.

(** The records of a block list, and of a file list, that define [x]:
    where each is found, and its mapping. *)
Definition block_defines (x : string) (yaml_path : Path) (block : yaml)
  : list (Path * ydict) :=
  match block with
  | YMap d =>
      match dict_get d "id" with
      | YStr i => if i =? x then [(yaml_path, d)] else []
      | _ => []
      end
  | _ => []
  end.

Definition definitions (x : string) (files : list (Path * file_content))
  : list (Path * ydict) :=
  flat_map (fun f => match file_blocks (snd f) with
                     | Ret blocks => flat_map (block_defines x (fst f)) blocks
                     | Raise _ => []
                     end) files.

Definition is_duplicate_error (x : string) (e : error) : bool :=
  match e with
  | ErrDuplicateId _ i _ => i =? x
  | _ => false
  end.

Section Records.
Variable fromisoformat : string -> date + string.

(** The Division the loader makes of a record it admits. *)
Definition division_of (yaml_path : Path) (div_id : string) (d : ydict) : Division.t :=
  let ctx := CtxDivision yaml_path div_id in
  Division.make div_id yaml_path
    (fst (normalize_parent (dict_get d "parent") ctx []))
    (fst (parse_date fromisoformat (dict_get d "from") ctx []))
    (fst (parse_date fromisoformat (dict_get d "to") ctx []))
    (rsplit_colon_head div_id) d.

(** The messages the normalization of an admitted record appends. *)
Definition field_errors (yaml_path : Path) (div_id : string) (d : ydict) : list error :=
  let ctx := CtxDivision yaml_path div_id in
  snd (parse_date fromisoformat (dict_get d "from") ctx [])
  ++ snd (parse_date fromisoformat (dict_get d "to") ctx [])
  ++ snd (normalize_parent (dict_get d "parent") ctx []).

(** What the model holds for [x] after the records [defs] that define
    [x], when it held [before]. *)
Definition retained (x : string) (before : option Division.t)
           (defs : list (Path * ydict)) : option Division.t :=
  match before, defs with
  | Some first, _ => Some first
  | None, (p0, d0) :: _ => Some (division_of p0 x d0)
  | None, [] => None
  end.

(** One duplicate message for each record after the first. *)
Definition duplicate_errors (x : string) (before : option Division.t)
           (defs : list (Path * ydict)) : list error :=
  match before, defs with
  | Some first, _ => map (fun pd => ErrDuplicateId (fst pd) x (Division.file first)) defs
  | None, (p0, _) :: later => map (fun pd => ErrDuplicateId (fst pd) x p0) later
  | None, [] => []
  end.
(** The identifier of the record a message of the loader is about. *)
Definition loader_error_id (e : error) : option string :=
  match e with
  | ErrDateType (CtxDivision _ i) _
  | ErrDateInvalid (CtxDivision _ i) _ _
  | ErrParentType (CtxDivision _ i) _
  | ErrDuplicateId _ i _ => Some i
  | _ => None
  end.

Definition about_record (x : string) (e : error) : bool :=
  match loader_error_id e with
  | Some i => i =? x
  | None => false
  end.

(** All that is recorded about the records [defs] that define [x]: the
    normalization messages of the one that is admitted, and one duplicate
    message for each of the others. *)
Definition record_errors (x : string) (before : option Division.t)
           (defs : list (Path * ydict)) : list error :=
  match before, defs with
  | Some first, _ => duplicate_errors x before defs
  | None, (p0, d0) :: _ => field_errors p0 x d0 ++ duplicate_errors x before defs
  | None, [] => []
  end.

(** What one turn of the block loop does to the model and to the list. *)
Definition block_effect (yaml_path : Path) (d : ydict) (divisions : divisions_t)
  : divisions_t * list error :=
  match dict_get d "id" with
  | YStr div_id =>
      match divisions_get divisions div_id with
      | Some first =>
          (divisions, [ErrDuplicateId yaml_path div_id (Division.file first)])
      | None =>
          (divisions_set divisions div_id (division_of yaml_path div_id d),
           field_errors yaml_path div_id d)
      end
  | _ => (divisions, [ErrMissingId yaml_path (YMap d)])
  end.

End Records.

(** The identifiers a Division lists under a relation field, and the
    messages the normalization of that field appends, each time the field
    is read. *)
Definition relation_ids (div : Division.t) (field : string) : list string :=
  fst (normalize_relation (dict_get (Division.raw div) field)
         (CtxField (Division.file div) (Division.id div) field) []).

Definition relation_errors (div : Division.t) (field : string) : list error :=
  snd (normalize_relation (dict_get (Division.raw div) field)
         (CtxField (Division.file div) (Division.id div) field) []).

(** The normalization messages about the relation field [field] of the
    Division [div_id]. *)
Definition relation_error_of (div_id field : string) (e : error) : bool :=
  match e with
  | ErrRelationDict (CtxField _ i f) _
  | ErrRelationItem (CtxField _ i f) _
  | ErrRelationType (CtxField _ i f) _ => (i =? div_id) && (f =? field)
  | _ => false
  end.

(** How often the Divisions of the model list [div_id] under [field]. *)
Definition references (divisions : divisions_t) (div_id field : string) : nat :=
  List.length (filter (String.eqb div_id)
                 (flat_map (fun source => relation_ids source field)
                           (divisions_values divisions))).

(** The Divisions of the lineage example: A lists B under became, and B
    lists [b_was] under was. *)
Definition example_A (file : Path) : Division.t :=
  Division.make "A" file (Some "NO") None None "A"
    [(YStr "id", YStr "A"); (YStr "became", YList [YStr "B"])].

Definition example_B (file : Path) (b_was : list yaml) : Division.t :=
  Division.make "B" file (Some "NO") None None "B"
    [(YStr "id", YStr "B"); (YStr "was", YList b_was)].

(** The groups the first loop of [validate_dates] builds. *)
Definition date_groups (divisions : divisions_t) : groups_t :=
  fst (group_divisions divisions []).

(** The end of validity that closes a Division's interval: its [to_date],
    or the latest date when it has none. *)
Definition closing_date (div : Division.t) : date :=
  match Division.to_date div with Some t => t | None => date_max end.

(** The running value as the specification words it: the maximum of the
    value so far and the Division's end of validity. *)
Definition running_maximum (last_to : option date) (div : Division.t) : date :=
  match last_to with
  | Some l => date_maximum l (closing_date div)
  | None => closing_date div
  end.

(** A Division of base R with the given variant and validity. *)
Definition example_variant (variant : string) (from_date : date) (to_date : option date)
  : Division.t :=
  Division.make ("R:" ++ variant) ["norway"; "r.yaml"] (Some "NO")
    (Some from_date) to_date (rsplit_colon_head ("R:" ++ variant)) [].

(** ** Notions used in the further properties *)

(** The messages the loader records for a block it does not admit. *)
Definition is_block_error (e : error) : bool :=
  match e with
  | ErrDuplicateId _ _ _ | ErrMissingId _ _ => true
  | _ => false
  end.

Definition is_yaml_error (e : error) : bool :=
  match e with ErrYaml _ _ => true | _ => false end.

(** The kinds of message each stage can record. *)
Definition is_loader_error (e : error) : bool :=
  match e with
  | ErrYaml _ _ | ErrMissingId _ _ | ErrDuplicateId _ _ _
  | ErrDateType _ _ | ErrDateInvalid _ _ _ | ErrParentType _ _ => true
  | _ => false
  end.

Definition is_parent_link_error (e : error) : bool :=
  match e with
  | ErrMissingParent _ _ | ErrParentNotFound _ _ _ => true
  | _ => false
  end.

Definition is_date_error (e : error) : bool :=
  match e with
  | ErrInvertedRange _ _ _ _ | ErrOverlap _ _ _ _ _ => true
  | _ => false
  end.

Definition is_lineage_error (e : error) : bool :=
  match e with
  | ErrRelationDict _ _ | ErrRelationItem _ _ | ErrRelationType _ _
  | ErrUnknownId _ _ _ _ | ErrLineageMismatch _ _ _ _ _ => true
  | _ => false
  end.




(** All the blocks of a file list. *)
Definition all_blocks (files : list (Path * file_content)) : list yaml :=
  flat_map (fun f => match file_blocks (snd f) with
                     | Ret blocks => blocks
                     | Raise _ => []
                     end) files.

Definition is_bad_yaml (f : Path * file_content) : bool :=
  match snd f with BadYaml _ => true | _ => false end.

(** A parent the parent-link pass accepts. *)
Definition parent_resolves (valid_ids : list string) (div : Division.t) : bool :=
  match Division.parent div with
  | None => false
  | Some parent => (parent =? "NO") || str_mem parent valid_ids
  end.

(** The inverted-range message of a Division, if its range is inverted. *)
Definition inverted_range (div : Division.t) : list error :=
  match Division.from_date div, Division.to_date div with
  | Some f, Some t =>
      if date_gtb f t
      then [ErrInvertedRange (Division.file div) (Division.id div) f t]
      else []
  | _, _ => []
  end.

Definition inverted_error_id (e : error) : option string :=
  match e with
  | ErrInvertedRange _ i _ _ => Some i
  | _ => None
  end.

Definition inverted_error_of (div_id : string) (e : error) : bool :=
  match inverted_error_id e with
  | Some i => i =? div_id
  | None => false
  end.

(** The Divisions of a base identifier, in the order of the model. *)
Definition same_base (base : string) (l : list Division.t) : list Division.t :=
  filter (fun d => Division.base_id d =? base) l.

(** The messages of the normalization of a relation list. *)
Definition is_relation_error (e : error) : bool :=
  match e with
  | ErrRelationDict _ _ | ErrRelationItem _ _ | ErrRelationType _ _ => true
  | _ => false
  end.

(** What the groups hold after the Divisions [l] have gone through the
    first loop. *)
Definition groups_partition (l : list Division.t) (g : groups_t) : Prop :=
  NoDup (map fst g) /\
  (forall b s, In (b, s) g -> s = same_base b l /\ s <> []) /\
  (forall d, In d l -> In (Division.base_id d) (map fst g)).

Definition relation_error_context (e : error) : option context :=
  match e with
  | ErrRelationDict c _ | ErrRelationItem c _ | ErrRelationType c _ => Some c
  | _ => None
  end.

(** The two directions the lineage pass checks. *)
Definition lineage_direction (field counterpart : string) : Prop :=
  (field = "was" /\ counterpart = "became") \/
  (field = "became" /\ counterpart = "was").

(** What a message of the lineage pass says of the model, when it is
    earned. *)
Definition lineage_message_earned (divisions : divisions_t) (e : error) : Prop :=
  match e with
  | ErrUnknownId file i field target_id =>
      exists source counterpart,
        In source (divisions_values divisions) /\
        file = Division.file source /\ i = Division.id source /\
        lineage_direction field counterpart /\
        In target_id (relation_ids source field) /\
        divisions_get divisions target_id = None
  | ErrLineageMismatch file i field target_id counterpart =>
      exists source target,
        In source (divisions_values divisions) /\
        file = Division.file source /\ i = Division.id source /\
        lineage_direction field counterpart /\
        In target_id (relation_ids source field) /\
        divisions_get divisions target_id = Some target /\
        str_mem (Division.id source) (relation_ids target counterpart) = false
  | ErrRelationDict ctx _ | ErrRelationItem ctx _ | ErrRelationType ctx _ =>
      exists div field counterpart,
        In div (divisions_values divisions) /\
        lineage_direction field counterpart /\
        ctx = CtxField (Division.file div) (Division.id div) field /\
        In e (relation_errors div field)
  | _ => False
  end.

(** A range the date pass accepts. *)
Definition range_ok (div : Division.t) : bool :=
  match Division.from_date div, Division.to_date div with
  | Some f, Some t => negb (date_gtb f t)
  | _, _ => true
  end.

(** [next] may follow a Division that ended on [last_to]: it has no from
    date, or starts after that end. *)
Definition starts_after (last_to : option date) (next : Division.t) : bool :=
  match last_to, Division.from_date next with
  | Some lt, Some f => negb (date_leb f lt)
  | _, _ => true
  end.

(** Each Division of the list may follow the one before it. *)
Fixpoint chain_ok (last_to : option date) (l : list Division.t) : bool :=
  match l with
  | [] => true
  | div :: rest =>
      starts_after last_to div && chain_ok (Some (closing_date div)) rest
  end.

(** A relation list the lineage pass accepts: it is well formed, and each
    identifier it lists is held by the model, by a Division whose
    counterpart list is well formed and names the source. *)
Definition relation_ok (divisions : divisions_t) (source : Division.t)
           (field counterpart : string) : bool :=
  match relation_errors source field with
  | [] =>
      forallb (fun target_id =>
                 match divisions_get divisions target_id with
                 | None => false
                 | Some target =>
                     match relation_errors target counterpart with
                     | [] => str_mem (Division.id source)
                                     (relation_ids target counterpart)
                     | _ :: _ => false
                     end
                 end)
              (relation_ids source field)
  | _ :: _ => false
  end.

(** * Properties *)

Unset Implicit Arguments.

(** ** Appending *)

Lemma fold_left_emit {A E : Type} (f : A -> list E -> list E) (g : A -> list E) :
  (forall a errs, f a errs = errs ++ g a) ->
  forall l errs, fold_left (fun e a => f a e) l errs = errs ++ flat_map g l.
Proof.
  intros Hf l; induction l as [|a l IH]; intros errs; simpl.
  - now rewrite app_nil_r.
  - rewrite IH, Hf, <- app_assoc. reflexivity.
Qed.

Lemma parent_link_check_emit (ids : list string) (div : Division.t) (errors : list error) :
  parent_link_check ids div errors = errors ++ parent_link_check ids div [].
Proof.
  unfold parent_link_check.
  destruct (Division.parent div) as [p|]; [|reflexivity].
  destruct (negb (p =? "NO") && negb (str_mem p ids)); simpl;
    [reflexivity | now rewrite app_nil_r].
Qed.

Lemma validate_parent_links_emit (divisions : divisions_t) (errors : list error) :
  validate_parent_links divisions errors =
  errors ++ flat_map (fun div => parent_link_check (divisions_keys divisions) div [])
                     (divisions_values divisions).
Proof.
  unfold validate_parent_links.
  apply (fold_left_emit (fun div errs => parent_link_check _ div errs)).
  intros; apply parent_link_check_emit.
Qed.

Lemma parent_link_check_about (ids : list string) (div : Division.t) (e : error) :
  In e (parent_link_check ids div []) -> parent_error_id e = Some (Division.id div).
Proof.
  unfold parent_link_check.
  destruct (Division.parent div) as [p|]; simpl.
  - destruct (negb (p =? "NO") && negb (str_mem p ids)); simpl; [|tauto].
    intros [<-|[]]; reflexivity.
  - intros [<-|[]]; reflexivity.
Qed.

Lemma filter_all {A : Type} (P : A -> bool) (l : list A) :
  (forall x, In x l -> P x = true) -> filter P l = l.
Proof.
  induction l as [|x l IH]; simpl; intros H; [reflexivity|].
  rewrite (H x (or_introl eq_refl)), IH; auto.
Qed.

Lemma filter_none {A : Type} (P : A -> bool) (l : list A) :
  (forall x, In x l -> P x = false) -> filter P l = [].
Proof.
  induction l as [|x l IH]; simpl; intros H; [reflexivity|].
  rewrite (H x (or_introl eq_refl)), IH; auto.
Qed.

(** Among the messages of a pass that emits, for each Division, messages
    about that Division only, those about one Division of a model without
    repeated identifiers are the ones emitted for it. *)
Lemma filter_flat_map_own {E : Type} (about : E -> option string)
      (g : Division.t -> list E) (l : list Division.t) (div : Division.t) :
  (forall d e, In e (g d) -> about e = Some (Division.id d)) ->
  NoDup (map Division.id l) ->
  In div l ->
  filter (fun e => match about e with
                   | Some i => i =? Division.id div
                   | None => false
                   end) (flat_map g l) = g div.
Proof.
  intros Hg. induction l as [|d l IH]; simpl; intros Hnd Hin; [tauto|].
  inversion Hnd as [|? ? Hnotin Hnd']; subst.
  rewrite filter_app.
  destruct Hin as [->|Hin].
  - rewrite filter_all, filter_none.
    + apply app_nil_r.
    + intros e He. apply in_flat_map in He as (d' & Hd' & He).
      rewrite (Hg _ _ He). apply String.eqb_neq. intros Heq.
      apply Hnotin. rewrite <- Heq. now apply in_map.
    + intros e He. rewrite (Hg _ _ He). apply String.eqb_refl.
  - rewrite filter_none, IH; auto.
    intros e He. rewrite (Hg _ _ He). apply String.eqb_neq. intros Heq.
    apply Hnotin. rewrite Heq. now apply in_map.
Qed.

Lemma parent_errors_of_division (divisions : divisions_t) (div : Division.t) :
  model_ok divisions ->
  In div (divisions_values divisions) ->
  filter (parent_error_of (Division.id div))
         (flat_map (fun d => parent_link_check (divisions_keys divisions) d [])
                   (divisions_values divisions))
  = parent_link_check (divisions_keys divisions) div [].
Proof.
  intros [Hnd Hkeys] Hin.
  apply (filter_flat_map_own parent_error_id
           (fun d => parent_link_check (divisions_keys divisions) d [])); auto.
  - intros d e. apply parent_link_check_about.
  - now rewrite <- Hkeys.
Qed.

Lemma str_mem_keys (s : string) (divisions : divisions_t) :
  str_mem s (divisions_keys divisions) = divisions_mem s divisions.
Proof.
  unfold divisions_mem, str_mem, divisions_keys.
  induction divisions as [|[k v] l IH]; [reflexivity|].
  cbn [map fst existsb divisions_get].
  rewrite (String.eqb_sym s k).
  destruct (k =? s); [reflexivity|exact IH].
Qed.

(** C5. The parent-link pass appends, for each Division of the model,
    exactly one missing-parent message when its parent is absent, exactly
    one parent-not-found message when its parent is present, is not "NO"
    and is no identifier of the model, and nothing otherwise. *)
Theorem validate_parent_links_per_division
        (divisions : divisions_t) (errors : list error) :
  model_ok divisions ->
  exists emitted,
    validate_parent_links divisions errors = errors ++ emitted /\
    forall div, In div (divisions_values divisions) ->
      filter (parent_error_of (Division.id div)) emitted =
      match Division.parent div with
      | None => [ErrMissingParent (Division.file div) (Division.id div)]
      | Some p =>
          if (p =? "NO") || str_mem p (divisions_keys divisions)
          then []
          else [ErrParentNotFound (Division.file div) (Division.id div) p]
      end.
Proof.
  intros Hok. eexists; split; [apply validate_parent_links_emit|].
  intros div Hin. rewrite parent_errors_of_division by assumption.
  unfold parent_link_check. destruct (Division.parent div) as [p|]; [|reflexivity].
  destruct (p =? "NO"), (str_mem p (divisions_keys divisions)); reflexivity.
Qed.

Lemma validate_parent_links_per_division_witness :
  let root := Division.make "N" ["norway"; "n.yaml"] (Some "NO") None None "N" [] in
  let lost := Division.make "N:1" ["norway"; "n.yaml"] (Some "Q") None None "N" [] in
  let bare := Division.make "N:2" ["norway"; "n.yaml"] None None None "N" [] in
  let divisions := [("N", root); ("N:1", lost); ("N:2", bare)] in
  exists emitted,
    validate_parent_links divisions [] = [] ++ emitted /\
    forall div, In div (divisions_values divisions) ->
      filter (parent_error_of (Division.id div)) emitted =
      match Division.parent div with
      | None => [ErrMissingParent (Division.file div) (Division.id div)]
      | Some p =>
          if (p =? "NO") || str_mem p (divisions_keys divisions)
          then []
          else [ErrParentNotFound (Division.file div) (Division.id div) p]
      end.
Proof.
  intros root lost bare divisions.
  apply (validate_parent_links_per_division divisions []).
  split.
  - repeat constructor; simpl; intuition discriminate.
  - reflexivity.
Defined.

(** C10. A record whose parent is the boolean true is given the parent
    "YES" and no message is recorded for it; the parent-link pass then
    reports "YES" as a parent that is not found, unless the model holds a
    Division named "YES". *)
Theorem parent_true_is_YES_reference
        (fromisoformat : string -> date + string)
        (divisions : divisions_t) (errors : list error)
        (yaml_path : Path) (div_id : string) (d : ydict) :
  dict_get d "parent" = YBool true ->
  model_ok divisions ->
  In (division_of fromisoformat yaml_path div_id d) (divisions_values divisions) ->
  normalize_parent (dict_get d "parent") (CtxDivision yaml_path div_id) errors
    = (Some "YES", errors) /\
  Division.parent (division_of fromisoformat yaml_path div_id d) = Some "YES" /\
  exists emitted,
    validate_parent_links divisions errors = errors ++ emitted /\
    filter (parent_error_of div_id) emitted =
    if divisions_mem "YES" divisions then []
    else [ErrParentNotFound yaml_path div_id "YES"].
Proof.
  intros Hp Hok Hin.
  assert (Hparent : Division.parent (division_of fromisoformat yaml_path div_id d)
                    = Some "YES").
  { unfold division_of. cbn [Division.parent]. now rewrite Hp. }
  split; [now rewrite Hp|]. split; [exact Hparent|].
  eexists; split; [apply validate_parent_links_emit|].
  pose proof (parent_errors_of_division divisions _ Hok Hin) as Hown.
  change (Division.id (division_of fromisoformat yaml_path div_id d))
    with div_id in Hown.
  rewrite Hown. unfold parent_link_check. rewrite Hparent.
  rewrite (str_mem_keys "YES" divisions).
  destruct (divisions_mem "YES" divisions); reflexivity.
Qed.

Lemma parent_true_is_YES_reference_witness :
  let iso := fun _ : string => @inr date string "Invalid isoformat string" in
  let file := ["norway"; "n.yaml"] in
  let record := [(YStr "id", YStr "N"); (YStr "parent", YBool true)] in
  normalize_parent (dict_get record "parent") (CtxDivision file "N") []
    = (Some "YES", []) /\
  Division.parent (division_of iso file "N" record) = Some "YES" /\
  exists emitted,
    validate_parent_links [("N", division_of iso file "N" record)] [] = [] ++ emitted /\
    filter (parent_error_of "N") emitted = [ErrParentNotFound file "N" "YES"].
Proof.
  intros iso file record.
  apply (parent_true_is_YES_reference iso
           [("N", division_of iso file "N" record)] [] file "N" record).
  - reflexivity.
  - split; [repeat constructor; simpl; tauto | reflexivity].
  - simpl; auto.
Defined.

(** ** The overlap example *)

(** C6. With R:1 valid from 2000-01-01 to 2005-12-31 and R:2 valid from
    2005-06-01 with no end, the date pass appends exactly one message, the
    overlap of R:2; with R:2 starting 2006-01-01 it appends nothing. The
    order in which the model holds the two makes no difference. *)
Theorem validate_dates_example_R
        (f1 f2 : Path) (p1 p2 : option string) (r1 r2 : ydict) (errors : list error) :
  let R1 := example_R1 f1 p1 r1 in
  let R2 := example_R2 (mkDate 2005 6 1) f2 p2 r2 in
  let R2' := example_R2 (mkDate 2006 1 1) f2 p2 r2 in
  validate_dates [("R:1", R1); ("R:2", R2)] errors =
    errors ++ [ErrOverlap "R" f2 "R:2" (mkDate 2005 6 1) (mkDate 2005 12 31)] /\
  validate_dates [("R:2", R2); ("R:1", R1)] errors =
    errors ++ [ErrOverlap "R" f2 "R:2" (mkDate 2005 6 1) (mkDate 2005 12 31)] /\
  validate_dates [("R:1", R1); ("R:2", R2')] errors = errors /\
  validate_dates [("R:2", R2'); ("R:1", R1)] errors = errors.
Proof.
  repeat split; reflexivity.
Qed.

(** ** The program's exit *)

Lemma line_breaks_app (s1 s2 : string) :
  line_breaks (s1 ++ s2) = line_breaks s1 + line_breaks s2.
Proof.
  induction s1 as [|c s1 IH]; simpl; [reflexivity|]. rewrite IH. lia.
Qed.

Lemma stream_lines_issues (repr_str repr_bytes : string -> string)
      (set_order : list yaml -> list nat) (errors : list error) :
  stream_lines (map (issue_print repr_str repr_bytes set_order) errors)
  = List.length errors
    + list_sum (map (fun e => line_breaks (message_text repr_str repr_bytes set_order e))
                    errors).
Proof.
  unfold stream_lines.
  induction errors as [|e errors IH]; [reflexivity|].
  change (S (line_breaks (issue_print repr_str repr_bytes set_order e))
          + list_sum (map (fun s => S (line_breaks s))
                          (map (issue_print repr_str repr_bytes set_order) errors))
          = S (List.length errors)
            + (line_breaks (message_text repr_str repr_bytes set_order e)
               + list_sum (map (fun e => line_breaks
                                           (message_text repr_str repr_bytes set_order e))
                               errors))).
  rewrite IH. unfold issue_print. rewrite line_breaks_app.
  change (line_breaks " - ") with 0. lia.
Qed.

(** C8 (as the code has it). [main] exits with 2 and one print on the
    error stream when the directory is missing. When the loader returns,
    it exits with 0 and one print naming the number of Divisions and the
    path when no message was recorded, as for a directory without files;
    and otherwise with 1, after a header and one print for each message,
    in order. A print is one line unless the message holds line breaks of
    its own: the stream shows the header, a line for each message, and
    one more line for each line break inside a message. *)
Theorem main_exit_status
        (fromisoformat : string -> date + string)
        (repr_str repr_bytes : string -> string) (set_order : list yaml -> list nat)
        (country_path : Path) :
  let main := main fromisoformat repr_str repr_bytes set_order country_path in
  let text := message_text repr_str repr_bytes set_order in
  main None = Ret (mkRun 2 [] [not_found_print country_path]) /\
  main (Some []) = Ret (mkRun 0 [ok_print 0 country_path] []) /\
  forall country_root divisions errors0,
    collect_divisions fromisoformat country_root [] = Ret (divisions, errors0) ->
    (validate_all divisions errors0 = [] ->
     main (Some country_root)
       = Ret (mkRun 0 [ok_print (List.length divisions) country_path] [])) /\
    (validate_all divisions errors0 <> [] ->
     let errors := validate_all divisions errors0 in
     let prints :=
       header_print :: map (issue_print repr_str repr_bytes set_order) errors in
     main (Some country_root) = Ret (mkRun 1 [] prints) /\
     List.length prints = S (List.length errors) /\
     stream_lines prints
       = S (List.length errors) + list_sum (map (fun e => line_breaks (text e)) errors) /\
     (Forall (fun e => line_breaks (text e) = 0) errors ->
      stream_lines prints = S (List.length errors))).
Proof.
  intros main0 text. subst main0 text.
  split; [reflexivity|]. split; [reflexivity|].
  intros country_root divisions errors0 Hload. unfold main. rewrite Hload. cbn [bind].
  split.
  - intros ->. reflexivity.
  - intros Hne. cbv zeta.
    assert (Hlines :
              stream_lines
                (header_print
                 :: map (issue_print repr_str repr_bytes set_order)
                        (validate_all divisions errors0))
              = S (List.length (validate_all divisions errors0))
                + list_sum (map (fun e => line_breaks
                                            (message_text repr_str repr_bytes set_order e))
                                (validate_all divisions errors0))).
    { change (stream_lines (?h :: ?l)) with (S (line_breaks h) + stream_lines l).
      rewrite stream_lines_issues. reflexivity. }
    destruct (validate_all divisions errors0) as [|e l] eqn:E; [congruence|].
    split; [reflexivity|]. split; [simpl; now rewrite length_map|].
    split; [exact Hlines|].
    intros Hall. rewrite Hlines.
    assert (Hz : list_sum (map (fun e => line_breaks
                                           (message_text repr_str repr_bytes set_order e))
                               (e :: l)) = 0).
    { clear -Hall. induction Hall as [|e' l' He' _ IH]; simpl; [reflexivity|].
      now rewrite He', IH. }
    rewrite Hz. lia.
Qed.

Lemma main_exit_status_witness :
  let iso := fun _ : string => @inr date string "Invalid isoformat string" in
  let quoted := fun s : string => ("'" ++ s ++ "'")%string in
  let in_order := fun items : list yaml => seq 0 (List.length items) in
  let path := ["countries"; "norway"] in
  let file := ["countries"; "norway"; "a.yaml"] in
  let listing parent :=
    [(file, Parsed (YMap [(YStr "divisions",
                           YList [YMap ((YStr "id", YStr "N") :: parent)])]))] in
  main iso quoted quoted in_order path (Some (listing [(YStr "parent", YBool false)]))
    = Ret (mkRun 0 ["OK: 1 divisions validated in countries/norway"] []) /\
  main iso quoted quoted in_order path (Some (listing []))
    = Ret (mkRun 1 []
             ["Schema lint found issues:";
              " - countries/norway/a.yaml (N): missing parent reference"]).
Proof.
  intros iso quoted in_order path file listing.
  destruct (main_exit_status iso quoted quoted in_order path) as (_ & _ & H). split.
  - destruct (H (listing [(YStr "parent", YBool false)]) _ _ eq_refl) as [H0 _].
    exact (H0 eq_refl).
  - destruct (H (listing []) _ _ eq_refl) as [_ H1].
    apply H1. discriminate.
Defined.

(** C8 (as stated, refuted). One file, [a: b: c], that does not parse:
    the text of the parser's error holds a line break, so the error stream
    shows three lines for the header and the one message recorded, not
    two. *)
Lemma parse_failure_spans_lines :
  let iso := fun _ : string => @inr date string "Invalid isoformat string" in
  let quoted := fun s : string => ("'" ++ s ++ "'")%string in
  let in_order := fun items : list yaml => seq 0 (List.length items) in
  let quote := String (ascii_of_nat 34) EmptyString in
  let exc := ("mapping values are not allowed here" ++ newline
              ++ "  in " ++ quote ++ "<unicode string>" ++ quote
              ++ ", line 1, column 5")%string in
  let listing := [(["norway"; "a.yaml"], BadYaml exc)] in
  exists divisions errors0 r,
    collect_divisions iso listing [] = Ret (divisions, errors0) /\
    validate_all divisions errors0 = [ErrYaml ["norway"; "a.yaml"] exc] /\
    main iso quoted quoted in_order ["norway"] (Some listing) = Ret r /\
    exit_code r = 1%Z /\
    stderr r = ["Schema lint found issues:";
                (" - norway/a.yaml: failed to parse YAML: " ++ exc)%string] /\
    stream_lines (stderr r) = 3 /\
    stream_lines (stderr r) <> 1 + List.length (validate_all divisions errors0).
Proof.
  intros iso quoted in_order quote exc listing.
  eexists; eexists; eexists.
  split; [reflexivity|]. split; [reflexivity|]. split; [reflexivity|].
  split; [reflexivity|]. split; [reflexivity|]. split; [reflexivity|].
  vm_compute. discriminate.
Qed.

(** ** The loader: exceptions *)

Section LoaderProperties.
Variable fromisoformat : string -> date + string.

Lemma parse_date_emit (value : yaml) (ctx : context) (errors : list error) :
  parse_date fromisoformat value ctx errors =
  (fst (parse_date fromisoformat value ctx []),
   errors ++ snd (parse_date fromisoformat value ctx [])).
Proof.
  destruct value; simpl; rewrite ?app_nil_r; try reflexivity.
  destruct (fromisoformat s); simpl; rewrite ?app_nil_r; reflexivity.
Qed.

Lemma normalize_parent_emit (value : yaml) (ctx : context) (errors : list error) :
  normalize_parent value ctx errors =
  (fst (normalize_parent value ctx []), errors ++ snd (normalize_parent value ctx [])).
Proof.
  destruct value; simpl; rewrite ?app_nil_r; reflexivity.
Qed.

Lemma collect_block_mapping (yaml_path : Path) (d : ydict)
      (divisions : divisions_t) (errors : list error) :
  collect_block fromisoformat yaml_path (YMap d) (divisions, errors) =
  Ret (fst (block_effect fromisoformat yaml_path d divisions),
       errors ++ snd (block_effect fromisoformat yaml_path d divisions)).
Proof.
  unfold collect_block, block_effect. simpl.
  destruct (dict_get d "id"); try reflexivity.
  destruct (divisions_get divisions s); [reflexivity|].
  unfold division_of, field_errors.
  rewrite (parse_date_emit (dict_get d "from")).
  rewrite (parse_date_emit (dict_get d "to")).
  rewrite (normalize_parent_emit (dict_get d "parent")).
  cbv beta iota zeta. rewrite <- !app_assoc. reflexivity.
Qed.

Lemma collect_block_other (yaml_path : Path) (block : yaml) (st : loader_state) :
  is_mapping block = false ->
  collect_block fromisoformat yaml_path block st = Raise AttributeError.
Proof.
  destruct st, block; simpl; intros; try reflexivity; discriminate.
Qed.

Lemma collect_blocks_returns (yaml_path : Path) (blocks : list yaml) :
  forallb is_mapping blocks = true ->
  forall st, exists divisions emitted,
    collect_blocks fromisoformat yaml_path blocks st
      = Ret (divisions, snd st ++ emitted).
Proof.
  induction blocks as [|b bs IH]; simpl; intros Hall [divisions errors].
  - exists divisions, []. now rewrite app_nil_r.
  - apply andb_prop in Hall as [Hb Hbs].
    destruct b; try discriminate.
    rewrite collect_block_mapping. simpl.
    destruct (IH Hbs (fst (block_effect fromisoformat yaml_path items divisions),
                      errors ++ snd (block_effect fromisoformat yaml_path items divisions)))
      as (ds & em & ->).
    exists ds, (snd (block_effect fromisoformat yaml_path items divisions) ++ em).
    cbn [snd]. now rewrite app_assoc.
Qed.

Lemma collect_file_blocks (f : Path * file_content) (st : loader_state) :
  collect_file fromisoformat f st =
  match snd f with
  | BadYaml exc => Ret (fst st, snd st ++ [ErrYaml (fst f) exc])
  | _ => blocks <- file_blocks (snd f) ;;
         collect_blocks fromisoformat (fst f) blocks st
  end.
Proof.
  destruct f as [p [| | exc | e0 | v]]; simpl; try reflexivity.
  destruct (as_dict (if truthy v then v else YMap [])); reflexivity.
Qed.

(** Every loadable file set is loaded: the loader returns a model and
    the list it was given, extended. *)
Lemma collect_files_returns (files : list (Path * file_content)) :
  forallb loadable files = true ->
  forall st, exists divisions emitted,
    collect_files fromisoformat files st = Ret (divisions, snd st ++ emitted).
Proof.
  induction files as [|f fs IH]; simpl; intros Hall st.
  - exists (fst st), []. rewrite app_nil_r. now destruct st.
  - apply andb_prop in Hall as [Hf Hfs].
    rewrite collect_file_blocks. unfold loadable in Hf.
    destruct f as [p c]; simpl in *.
    destruct c as [| | exc | e0 | v];
      [discriminate | discriminate | | discriminate |].
    + simpl. destruct (IH Hfs (fst st, snd st ++ [ErrYaml p exc])) as (ds & em & ->).
      exists ds, ([ErrYaml p exc] ++ em). cbn [snd]. now rewrite app_assoc.
    + destruct (file_blocks (Parsed v)) as [blocks|]; [|discriminate]. simpl.
      destruct (collect_blocks_returns p blocks Hf st) as (ds1 & em1 & ->). simpl.
      destruct (IH Hfs (ds1, snd st ++ em1)) as (ds & em & ->).
      exists ds, (em1 ++ em). cbn [snd]. now rewrite app_assoc.
Qed.

End LoaderProperties.

(** C2 (the loader raises). On a file whose top-level value is a sequence,
    and on a file whose divisions hold a block that is no mapping, [.get]
    raises AttributeError, which [collect_divisions] does not catch; a file
    that cannot be decoded raises too. No model and no list is returned. *)
Theorem collect_divisions_raises
        (fromisoformat : string -> date + string) (errors : list error) :
  let yaml_path := ["norway"; "a.yaml"] in
  collect_divisions fromisoformat
    [(yaml_path, Parsed (YList [YStr "x"]))] errors = Raise AttributeError /\
  collect_divisions fromisoformat
    [(yaml_path, Parsed (YMap [(YStr "divisions", YList [YStr "x"])]))] errors
    = Raise AttributeError /\
  collect_divisions fromisoformat
    [(yaml_path, Parsed (YMap [(YStr "divisions", YInt 5)]))] errors
    = Raise TypeError /\
  collect_divisions fromisoformat [(yaml_path, NotUtf8)] errors
    = Raise UnicodeDecodeError.
Proof.
  repeat split; reflexivity.
Qed.

(** ** The loader: duplicate identifiers *)

Lemma divisions_get_set (divisions : divisions_t) (k k' : string) (v : Division.t) :
  divisions_get (divisions_set divisions k v) k' =
  if k =? k' then Some v else divisions_get divisions k'.
Proof.
  induction divisions as [|[k0 v0] ds IH]; simpl.
  - reflexivity.
  - destruct (k0 =? k) eqn:E0; simpl.
    + apply String.eqb_eq in E0; subst k0.
      destruct (k =? k'); reflexivity.
    + rewrite IH. destruct (k0 =? k') eqn:E1; [|reflexivity].
      apply String.eqb_eq in E1; subst k0.
      rewrite String.eqb_sym, E0. reflexivity.
Qed.

Section Duplicates.
Variable fromisoformat : string -> date + string.
Variable x : string.

Local Abbreviation retained := (retained fromisoformat x).
Local Abbreviation dups := (filter (is_duplicate_error x)).

Lemma retained_app (before : option Division.t) (l1 l2 : list (Path * ydict)) :
  retained before (l1 ++ l2) = retained (retained before l1) l2.
Proof.
  destruct before as [f|]; [reflexivity|].
  destruct l1 as [|[p0 d0] l1]; reflexivity.
Qed.

Lemma duplicate_errors_app (before : option Division.t) (l1 l2 : list (Path * ydict)) :
  duplicate_errors x before (l1 ++ l2) =
  duplicate_errors x before l1 ++ duplicate_errors x (retained before l1) l2.
Proof.
  destruct before as [f|]; simpl.
  - apply map_app.
  - destruct l1 as [|[p0 d0] l1]; simpl; [reflexivity|]. apply map_app.
Qed.

Lemma field_errors_no_duplicate (yaml_path : Path) (div_id : string) (d : ydict) :
  dups (field_errors fromisoformat yaml_path div_id d) = [].
Proof.
  unfold field_errors. rewrite !filter_app.
  assert (Hd : forall v ctx, dups (snd (parse_date fromisoformat v ctx [])) = []).
  { intros v ctx. destruct v; simpl; try reflexivity.
    destruct (fromisoformat s); reflexivity. }
  rewrite !Hd. simpl.
  destruct (dict_get d "parent"); reflexivity.
Qed.

(** One record: the model keeps what it held for [x], or takes the
    record when it held nothing; a record met when [x] is held adds one
    duplicate message naming its own file and the first one's file. *)
Lemma block_effect_duplicates (yaml_path : Path) (d : ydict) (divisions : divisions_t) :
  let eff := block_effect fromisoformat yaml_path d divisions in
  let defs := block_defines x yaml_path (YMap d) in
  divisions_get (fst eff) x = retained (divisions_get divisions x) defs /\
  dups (snd eff) = duplicate_errors x (divisions_get divisions x) defs.
Proof.
  unfold block_effect, block_defines.
  assert (Hnone : forall b : option Division.t,
             retained b [] = b /\ duplicate_errors x b [] = []).
  { intros [f|]; split; reflexivity. }
  destruct (dict_get d "id") as [| | | |i| | | | | | |];
    try (simpl; destruct (Hnone (divisions_get divisions x)) as [-> ->];
         split; reflexivity).
  destruct (i =? x) eqn:Ei.
  - apply String.eqb_eq in Ei; subst i.
    destruct (divisions_get divisions x) as [first|] eqn:Eg; simpl.
    + rewrite Eg, String.eqb_refl. split; reflexivity.
    + rewrite divisions_get_set, String.eqb_refl, field_errors_no_duplicate.
      split; reflexivity.
  - destruct (Hnone (divisions_get divisions x)) as [-> ->].
    destruct (divisions_get divisions i) as [first|]; simpl.
    + rewrite Ei. split; reflexivity.
    + rewrite divisions_get_set, Ei, field_errors_no_duplicate. split; reflexivity.
Qed.

Lemma collect_blocks_duplicates (yaml_path : Path) (blocks : list yaml) :
  forall divisions errors divisions' errors',
    collect_blocks fromisoformat yaml_path blocks (divisions, errors)
      = Ret (divisions', errors') ->
    exists emitted,
      errors' = errors ++ emitted /\
      divisions_get divisions' x =
        retained (divisions_get divisions x)
                 (flat_map (block_defines x yaml_path) blocks) /\
      dups emitted =
        duplicate_errors x (divisions_get divisions x)
                         (flat_map (block_defines x yaml_path) blocks).
Proof.
  induction blocks as [|b bs IH]; intros divisions errors divisions' errors' H.
  - simpl in H. injection H as <- <-. exists []. rewrite app_nil_r.
    destruct (divisions_get divisions x); repeat split; reflexivity.
  - cbn [collect_blocks] in H.
    destruct (is_mapping b) eqn:Eb;
      [|rewrite collect_block_other in H by assumption; discriminate].
    destruct b; try discriminate.
    rewrite collect_block_mapping in H. cbn [bind] in H.
    apply IH in H as (em & -> & Hget & Hdup).
    destruct (block_effect_duplicates yaml_path items divisions) as [Hg1 Hd1].
    exists (snd (block_effect fromisoformat yaml_path items divisions) ++ em).
    cbn [flat_map].
    rewrite retained_app, duplicate_errors_app, filter_app, <- Hg1, Hd1, Hdup, Hget.
    repeat split. now rewrite app_assoc.
Qed.

Lemma collect_files_duplicates (files : list (Path * file_content)) :
  forall divisions errors divisions' errors',
    collect_files fromisoformat files (divisions, errors) = Ret (divisions', errors') ->
    exists emitted,
      errors' = errors ++ emitted /\
      divisions_get divisions' x =
        retained (divisions_get divisions x) (definitions x files) /\
      dups emitted =
        duplicate_errors x (divisions_get divisions x) (definitions x files).
Proof.
  induction files as [|[p c] fs IH]; intros divisions errors divisions' errors' H.
  - simpl in H. injection H as <- <-. exists []. rewrite app_nil_r.
    destruct (divisions_get divisions x); repeat split; reflexivity.
  - cbn [collect_files] in H. rewrite collect_file_blocks in H.
    unfold definitions. cbn [flat_map fst snd] in *.
    fold (definitions x fs).
    destruct c as [| | exc | e0 | v];
      [discriminate | discriminate | | discriminate |].
    + cbn [bind fst snd file_blocks flat_map app] in *.
      apply IH in H as (em & -> & Hget & Hdup).
      exists ([ErrYaml p exc] ++ em).
      rewrite <- app_assoc. repeat split; assumption.
    + destruct (file_blocks (Parsed v)) as [blocks|e]; [|discriminate].
      cbn [bind] in H.
      destruct (collect_blocks fromisoformat p blocks (divisions, errors))
        as [[ds1 es1]|e] eqn:E1; [|discriminate].
      apply collect_blocks_duplicates in E1 as (em1 & -> & Hg1 & Hd1).
      cbn [bind] in H.
      apply IH in H as (em & -> & Hget & Hdup).
      exists (em1 ++ em).
      rewrite retained_app, duplicate_errors_app, filter_app, <- Hg1, Hd1, Hdup, Hget.
      repeat split. now rewrite app_assoc.
Qed.

End Duplicates.

(** ** The order of paths *)

Section LexOrder.
Context {A : Type}.
Variable cmp : A -> A -> comparison.
Hypothesis cmp_eq : forall a b, cmp a b = Eq <-> a = b.
Hypothesis cmp_antisym : forall a b, cmp a b = CompOpp (cmp b a).
Hypothesis cmp_trans : forall a b c, cmp a b = Lt -> cmp b c = Lt -> cmp a c = Lt.

Lemma lex_compare_eq (l1 l2 : list A) : lex_compare cmp l1 l2 = Eq <-> l1 = l2.
Proof.
  revert l2; induction l1 as [|a l1 IH]; intros [|b l2]; simpl;
    try (split; [discriminate|discriminate]); [tauto|].
  destruct (cmp a b) eqn:E.
  - apply cmp_eq in E; subst b. rewrite IH.
    split; [now intros -> | now intros [= ->]].
  - split; [discriminate|]. intros [= -> ->].
    rewrite (proj2 (cmp_eq b b) eq_refl) in E. discriminate.
  - split; [discriminate|]. intros [= -> ->].
    rewrite (proj2 (cmp_eq b b) eq_refl) in E. discriminate.
Qed.

Lemma lex_compare_antisym (l1 l2 : list A) :
  lex_compare cmp l1 l2 = CompOpp (lex_compare cmp l2 l1).
Proof.
  revert l2; induction l1 as [|a l1 IH]; intros [|b l2]; simpl; try reflexivity.
  rewrite (cmp_antisym a b), IH.
  destruct (cmp b a); reflexivity.
Qed.

Lemma lex_compare_trans (l1 l2 l3 : list A) :
  lex_compare cmp l1 l2 = Lt -> lex_compare cmp l2 l3 = Lt ->
  lex_compare cmp l1 l3 = Lt.
Proof.
  revert l2 l3; induction l1 as [|a l1 IH]; intros [|b l2] [|c l3]; simpl;
    try discriminate; try reflexivity.
  destruct (cmp a b) eqn:Eab; try discriminate.
  - apply cmp_eq in Eab; subst b.
    destruct (cmp a c); try discriminate; [apply IH | reflexivity].
  - intros _. destruct (cmp b c) eqn:Ebc; try discriminate.
    + apply cmp_eq in Ebc; subst c. now rewrite Eab.
    + now rewrite (cmp_trans _ _ _ Eab Ebc).
Qed.
End LexOrder.

Lemma path_ltb_irrefl (p : Path) : path_ltb p p = false.
Proof.
  unfold path_ltb, path_compare.
  rewrite (proj2 (lex_compare_eq String.compare String_as_OT.cmp_eq p p) eq_refl). reflexivity.
Qed.

Lemma path_ltb_trans (p q r : Path) :
  path_ltb p q = true -> path_ltb q r = true -> path_ltb p r = true.
Proof.
  unfold path_ltb, path_compare. intros H1 H2.
  destruct (lex_compare String.compare p q) eqn:E1; try discriminate.
  destruct (lex_compare String.compare q r) eqn:E2; try discriminate.
  rewrite (lex_compare_trans String.compare String_as_OT.cmp_eq) with (l2 := q); auto.
  intros a b c Hab Hbc. apply String_as_OT.cmp_lt.
  apply String_as_OT.cmp_lt in Hab, Hbc.
  eapply String_as_OT.lt_trans; eassumption.
Qed.

Lemma path_ltb_total (p q : Path) :
  p <> q -> path_ltb q p = false -> path_ltb p q = true.
Proof.
  unfold path_ltb, path_compare. intros Hne.
  rewrite (lex_compare_antisym String.compare String_as_OT.cmp_antisym q p).
  destruct (lex_compare String.compare p q) eqn:E; simpl; try discriminate; auto.
  apply (lex_compare_eq String.compare String_as_OT.cmp_eq) in E. contradiction.
Qed.

(** ** Sorting *)

Section SortProperties.
Context {A K : Type}.
Variable key : A -> K.
Variable ltb : K -> K -> bool.

Lemma insert_sorted_perm (x : A) (l : list A) :
  Permutation (insert_sorted key ltb x l) (x :: l).
Proof.
  induction l as [|y l IH]; simpl; [reflexivity|].
  destruct (ltb (key y) (key x)); [|reflexivity].
  rewrite IH. apply perm_swap.
Qed.

Lemma sort_by_perm (l : list A) : Permutation (sort_by key ltb l) l.
Proof.
  induction l as [|x l IH]; simpl; [reflexivity|].
  rewrite insert_sorted_perm. now constructor.
Qed.

Hypothesis ltb_irrefl : forall k, ltb k k = false.
Hypothesis ltb_trans : forall a b c, ltb a b = true -> ltb b c = true -> ltb a c = true.
Hypothesis ltb_total : forall a b, a <> b -> ltb b a = false -> ltb a b = true.

Let before (a b : A) : Prop := ltb (key a) (key b) = true.

Lemma insert_sorted_sorted (x : A) (l : list A) :
  ~ In (key x) (map key l) ->
  StronglySorted before l -> StronglySorted before (insert_sorted key ltb x l).
Proof.
  induction l as [|y l IH]; simpl; intros Hnotin Hs.
  - repeat constructor.
  - inversion Hs as [|? ? Hs' Hall]; subst.
    destruct (ltb (key y) (key x)) eqn:E.
    + constructor; [apply IH; tauto|].
      apply Forall_forall. intros z Hz.
      apply (Permutation_in _ (insert_sorted_perm x l)) in Hz as [<-|Hz]; [exact E|].
      rewrite Forall_forall in Hall. now apply Hall.
    + assert (Hxy : before x y).
      { apply ltb_total; [|exact E]. intros Heq. apply Hnotin. now left. }
      constructor; [assumption|]. constructor; [assumption|].
      apply Forall_forall. intros z Hz.
      rewrite Forall_forall in Hall. eapply ltb_trans; [exact Hxy|now apply Hall].
Qed.

Lemma sort_by_sorted (l : list A) :
  NoDup (map key l) -> StronglySorted before (sort_by key ltb l).
Proof.
  induction l as [|x l IH]; simpl; intros Hnd; [constructor|].
  inversion Hnd as [|? ? Hnotin Hnd']; subst.
  apply insert_sorted_sorted; [|auto].
  intros Hin. apply Hnotin.
  apply in_map_iff in Hin as (z & Hz & Hin).
  apply (Permutation_in _ (sort_by_perm l)) in Hin.
  rewrite <- Hz. now apply in_map.
Qed.

Lemma sorted_perm_unique (l1 l2 : list A) :
  StronglySorted before l1 -> StronglySorted before l2 ->
  Permutation l1 l2 -> l1 = l2.
Proof.
  revert l2; induction l1 as [|a l1 IH]; intros l2 H1 H2 Hp.
  - now apply Permutation_nil in Hp.
  - destruct l2 as [|b l2]; [now apply Permutation_sym, Permutation_nil in Hp|].
    inversion H1 as [|? ? H1' Ha]; inversion H2 as [|? ? H2' Hb]; subst.
    rewrite Forall_forall in Ha, Hb.
    assert (a = b) as <-.
    { assert (Hin1 : In a (b :: l2)) by (apply (Permutation_in _ Hp); now left).
      assert (Hin2 : In b (a :: l1))
        by (apply (Permutation_in _ (Permutation_sym Hp)); now left).
      destruct Hin1 as [->|Hin1]; [reflexivity|].
      destruct Hin2 as [->|Hin2]; [reflexivity|].
      exfalso. pose proof (ltb_trans _ _ _ (Ha _ Hin2) (Hb _ Hin1)) as Hc.
      rewrite ltb_irrefl in Hc. discriminate. }
    f_equal. apply IH; auto. eapply Permutation_cons_inv; eassumption.
Qed.

(** The sorted arrangement of elements with distinct keys does not depend
    on the order they come in. *)
Lemma sort_by_perm_invariant (l1 l2 : list A) :
  NoDup (map key l1) -> Permutation l1 l2 ->
  sort_by key ltb l1 = sort_by key ltb l2.
Proof.
  intros Hnd Hp. apply sorted_perm_unique.
  - now apply sort_by_sorted.
  - apply sort_by_sorted.
    eapply Permutation_NoDup; [|exact Hnd]. now apply Permutation_map.
  - rewrite !sort_by_perm. exact Hp.
Qed.
End SortProperties.

(** ** Determinism *)

Lemma map_ext_Forall {A B : Type} (f g : A -> B) (l : list A) :
  Forall (fun x => f x = g x) l -> map f l = map g l.
Proof.
  induction 1; simpl; [reflexivity|]. congruence.
Qed.

(** The text of a value without sets is the same in every process. *)
Lemma repr_set_free (repr_str repr_bytes : string -> string)
      (order1 order2 : list yaml -> list nat) (v : yaml) :
  set_free v = true ->
  repr repr_str repr_bytes order1 v = repr repr_str repr_bytes order2 v.
Proof.
  induction v using yaml_induction; cbn [set_free repr]; intros Hfree;
    try reflexivity; try discriminate.
  - f_equal. f_equal. f_equal. apply map_ext_Forall.
    rewrite forallb_forall in Hfree. rewrite Forall_forall in *.
    intros x Hx. apply H; auto.
  - f_equal. f_equal. f_equal. apply map_ext_Forall.
    rewrite forallb_forall in Hfree. rewrite Forall_forall in *.
    intros [k x] Hkx. specialize (H _ Hkx). specialize (Hfree _ Hkx).
    cbn [fst snd] in H. apply andb_prop in Hfree as [Hk Hv].
    destruct H as [H1 H2]. now rewrite H1, H2.
  - assert (Hmap : map (repr repr_str repr_bytes order1) items
                   = map (repr repr_str repr_bytes order2) items).
    { apply map_ext_Forall.
      rewrite forallb_forall in Hfree. rewrite Forall_forall in *.
      intros x Hx. apply H; auto. }
    destruct items as [|x [|y rest]]; [reflexivity | |].
    + injection Hmap as ->. reflexivity.
    + now rewrite Hmap.
Qed.

Lemma message_text_set_free (repr_str repr_bytes : string -> string)
      (order1 order2 : list yaml -> list nat) (e : error) :
  message_set_free e = true ->
  message_text repr_str repr_bytes order1 e = message_text repr_str repr_bytes order2 e.
Proof.
  destruct e; cbn [message_set_free message_text]; intros H; try reflexivity;
    now rewrite (repr_set_free repr_str repr_bytes order1 order2 _ H).
Qed.

(** C9 (as the code has it). What a run reports does not depend on the
    order in which the file system gives the files of the directory: the
    files are sorted by path before they are read, and every later pass
    follows the order of the model. Two runs over the same files record
    the same messages, the same templates with the same values in the
    same positions, and a process prints the same lines and exits alike
    whatever the order of the listing. Two processes print the same text
    as well when no message prints a set; the items of a set are printed
    in the order the process goes through them, which follows its hash
    seed. *)
Theorem main_deterministic
        (fromisoformat : string -> date + string)
        (repr_str repr_bytes : string -> string) (country_path : Path)
        (listing1 listing2 : list (Path * file_content)) (errors : list error) :
  NoDup (map fst listing1) ->
  Permutation listing1 listing2 ->
  collect_divisions fromisoformat listing1 errors
    = collect_divisions fromisoformat listing2 errors /\
  (forall set_order,
      main fromisoformat repr_str repr_bytes set_order country_path (Some listing1)
      = main fromisoformat repr_str repr_bytes set_order country_path (Some listing2)) /\
  (forall order1 order2,
      (forall divisions errors0,
          collect_divisions fromisoformat listing1 [] = Ret (divisions, errors0) ->
          forallb message_set_free (validate_all divisions errors0) = true) ->
      main fromisoformat repr_str repr_bytes order1 country_path (Some listing1)
      = main fromisoformat repr_str repr_bytes order2 country_path (Some listing2)).
Proof.
  intros Hnd Hp.
  assert (Hs : sort_by fst path_ltb listing1 = sort_by fst path_ltb listing2).
  { apply sort_by_perm_invariant; auto.
    - apply path_ltb_irrefl.
    - apply path_ltb_trans.
    - apply path_ltb_total. }
  split; [|split].
  - unfold collect_divisions. now rewrite Hs.
  - intros set_order. unfold main, collect_divisions. now rewrite Hs.
  - intros order1 order2 Hfree. unfold main.
    assert (Hc : collect_divisions fromisoformat listing2 []
                 = collect_divisions fromisoformat listing1 [])
      by (unfold collect_divisions; now rewrite Hs).
    rewrite Hc.
    destruct (collect_divisions fromisoformat listing1 []) as [[ds e0]|e];
      [|reflexivity].
    cbn [bind]. specialize (Hfree ds e0 eq_refl).
    destruct (validate_all ds e0) as [|e l]; [reflexivity|].
    f_equal. f_equal. f_equal.
    apply map_ext_Forall. apply Forall_forall. intros m Hm.
    rewrite forallb_forall in Hfree. unfold issue_print.
    now rewrite (message_text_set_free repr_str repr_bytes order1 order2 m (Hfree m Hm)).
Qed.

Lemma main_deterministic_witness :
  let iso := fun _ : string => @inr date string "Invalid isoformat string" in
  let quoted := fun s : string => ("'" ++ s ++ "'")%string in
  let in_order := fun items : list yaml => seq 0 (List.length items) in
  let reversed := fun items : list yaml => rev (seq 0 (List.length items)) in
  let a := (["norway"; "a.yaml"],
            Parsed (YMap [(YStr "divisions", YList [YMap [(YStr "id", YStr "N")]])])) in
  let b := (["norway"; "b"; "c.yaml"],
            Parsed (YMap [(YStr "divisions", YList [YMap [(YStr "id", YStr "N")]])])) in
  collect_divisions iso [a; b] [] = collect_divisions iso [b; a] [] /\
  main iso quoted quoted in_order ["norway"] (Some [a; b])
    = main iso quoted quoted reversed ["norway"] (Some [b; a]).
Proof.
  intros iso quoted in_order reversed a b.
  destruct (main_deterministic iso quoted quoted ["norway"] [a; b] [b; a] [])
    as (Hload & _ & Htext).
  - repeat constructor; simpl; intuition discriminate.
  - apply perm_swap.
  - split; [exact Hload|]. apply Htext.
    intros divisions errors0 [= <- <-]. reflexivity.
Defined.

(** C9 (as stated, refuted). A record whose parent is the set of "a" and
    "b": the message that reports it prints the set, and two processes
    that go through the set in different orders print different text for
    the same file. *)
Lemma set_text_follows_hash_seed :
  let iso := fun _ : string => @inr date string "Invalid isoformat string" in
  let quoted := fun s : string => ("'" ++ s ++ "'")%string in
  let in_order := fun items : list yaml => seq 0 (List.length items) in
  let reversed := fun items : list yaml => rev (seq 0 (List.length items)) in
  let listing :=
    [(["norway"; "a.yaml"],
      Parsed (YMap [(YStr "divisions",
        YList [YMap [(YStr "id", YStr "N");
                     (YStr "parent", YSet [YStr "a"; YStr "b"])]])]))] in
  main iso quoted quoted in_order ["norway"] (Some listing)
    = Ret (mkRun 1 []
             ["Schema lint found issues:";
              " - norway/a.yaml (N): parent must be string or null, got {'a', 'b'}";
              " - norway/a.yaml (N): missing parent reference"]) /\
  main iso quoted quoted reversed ["norway"] (Some listing)
    = Ret (mkRun 1 []
             ["Schema lint found issues:";
              " - norway/a.yaml (N): parent must be string or null, got {'b', 'a'}";
              " - norway/a.yaml (N): missing parent reference"]) /\
  main iso quoted quoted in_order ["norway"] (Some listing)
    <> main iso quoted quoted reversed ["norway"] (Some listing).
Proof.
  intros iso quoted in_order reversed listing.
  split; [reflexivity|]. split; [reflexivity|].
  vm_compute. discriminate.
Qed.

(** ** Duplicate identifiers *)

Lemma sort_by_loadable (files : list (Path * file_content)) :
  forallb loadable files = true ->
  forallb loadable (sort_by fst path_ltb files) = true.
Proof.
  rewrite !forallb_forall. intros H f Hf. apply H.
  exact (Permutation_in _ (sort_by_perm fst path_ltb files) Hf).
Qed.

Section RecordMessages.
Variable fromisoformat : string -> date + string.
Variable x : string.

Local Abbreviation retained := (retained fromisoformat x).
Local Abbreviation record_errors := (record_errors fromisoformat x).
Local Abbreviation about := (filter (about_record x)).

Lemma record_errors_app (before : option Division.t) (l1 l2 : list (Path * ydict)) :
  record_errors before (l1 ++ l2) =
  record_errors before l1 ++ record_errors (retained before l1) l2.
Proof.
  destruct before as [f|]; simpl.
  - apply map_app.
  - destruct l1 as [|[p0 d0] l1]; simpl; [reflexivity|].
    rewrite map_app, <- app_assoc.
    destruct l2 as [|[p1 d1] l2]; reflexivity.
Qed.

Lemma field_errors_about (yaml_path : Path) (div_id : string) (d : ydict) (e : error) :
  In e (field_errors fromisoformat yaml_path div_id d) ->
  loader_error_id e = Some div_id.
Proof.
  unfold field_errors. intros He.
  assert (Hd : forall v,
             In e (snd (parse_date fromisoformat v (CtxDivision yaml_path div_id) [])) ->
             loader_error_id e = Some div_id).
  { intros v. destruct v; simpl; try tauto;
      try (intros [<-|[]]; reflexivity).
    destruct (fromisoformat s); simpl; [tauto|]. intros [<-|[]]; reflexivity. }
  apply in_app_or in He as [He|He]; [now apply Hd in He|].
  apply in_app_or in He as [He|He]; [now apply Hd in He|].
  destruct (dict_get d "parent"); simpl in He; try tauto;
    destruct He as [<-|[]]; reflexivity.
Qed.

Lemma about_field_errors (yaml_path : Path) (div_id : string) (d : ydict) :
  about (field_errors fromisoformat yaml_path div_id d) =
  if div_id =? x then field_errors fromisoformat yaml_path div_id d else [].
Proof.
  destruct (div_id =? x) eqn:E.
  - apply filter_all. intros e He. unfold about_record.
    now rewrite (field_errors_about _ _ _ _ He).
  - apply filter_none. intros e He. unfold about_record.
    now rewrite (field_errors_about _ _ _ _ He).
Qed.

Lemma block_effect_records (yaml_path : Path) (d : ydict) (divisions : divisions_t) :
  about (snd (block_effect fromisoformat yaml_path d divisions)) =
  record_errors (divisions_get divisions x) (block_defines x yaml_path (YMap d)).
Proof.
  unfold block_effect, block_defines.
  assert (Hnone : forall b : option Division.t, record_errors b [] = []).
  { intros [f|]; reflexivity. }
  destruct (dict_get d "id") as [| | | |i| | | | | | |];
    try (simpl; now rewrite Hnone).
  destruct (divisions_get divisions i) as [first|] eqn:Ei; cbn [snd].
  - cbn [filter]. unfold about_record. cbn [loader_error_id].
    destruct (i =? x) eqn:E; [|now rewrite Hnone].
    apply String.eqb_eq in E. subst i. rewrite Ei. reflexivity.
  - rewrite about_field_errors.
    destruct (i =? x) eqn:E; [|now rewrite Hnone].
    apply String.eqb_eq in E. subst i. rewrite Ei. simpl. now rewrite app_nil_r.
Qed.

Lemma collect_blocks_records (yaml_path : Path) (blocks : list yaml) :
  forall divisions errors divisions' errors',
    collect_blocks fromisoformat yaml_path blocks (divisions, errors)
      = Ret (divisions', errors') ->
    exists emitted,
      errors' = errors ++ emitted /\
      divisions_get divisions' x =
        retained (divisions_get divisions x)
                 (flat_map (block_defines x yaml_path) blocks) /\
      about emitted =
        record_errors (divisions_get divisions x)
                      (flat_map (block_defines x yaml_path) blocks).
Proof.
  induction blocks as [|b bs IH]; intros divisions errors divisions' errors' H.
  - simpl in H. injection H as <- <-. exists []. rewrite app_nil_r.
    destruct (divisions_get divisions x); repeat split; reflexivity.
  - cbn [collect_blocks] in H.
    destruct (is_mapping b) eqn:Eb;
      [|rewrite collect_block_other in H by assumption; discriminate].
    destruct b; try discriminate.
    rewrite collect_block_mapping in H. cbn [bind] in H.
    apply IH in H as (em & -> & Hget & Habout).
    destruct (block_effect_duplicates fromisoformat x yaml_path items divisions)
      as [Hg1 _].
    pose proof (block_effect_records yaml_path items divisions) as Hr1.
    exists (snd (block_effect fromisoformat yaml_path items divisions) ++ em).
    cbn [flat_map].
    rewrite retained_app, record_errors_app, filter_app, <- Hg1, Hr1, Habout, Hget.
    repeat split. now rewrite app_assoc.
Qed.

Lemma collect_files_records (files : list (Path * file_content)) :
  forall divisions errors divisions' errors',
    collect_files fromisoformat files (divisions, errors) = Ret (divisions', errors') ->
    exists emitted,
      errors' = errors ++ emitted /\
      about emitted = record_errors (divisions_get divisions x) (definitions x files).
Proof.
  induction files as [|[p c] fs IH]; intros divisions errors divisions' errors' H.
  - simpl in H. injection H as <- <-. exists []. rewrite app_nil_r.
    destruct (divisions_get divisions x); repeat split; reflexivity.
  - cbn [collect_files] in H. rewrite collect_file_blocks in H.
    unfold definitions. cbn [flat_map fst snd] in *.
    fold (definitions x fs).
    destruct c as [| | exc | e0 | v];
      [discriminate | discriminate | | discriminate |].
    + cbn [bind fst snd file_blocks flat_map app] in *.
      apply IH in H as (em & -> & Habout).
      exists ([ErrYaml p exc] ++ em).
      rewrite <- app_assoc. repeat split; assumption.
    + destruct (file_blocks (Parsed v)) as [blocks|e]; [|discriminate].
      cbn [bind] in H.
      destruct (collect_blocks fromisoformat p blocks (divisions, errors))
        as [[ds1 es1]|e] eqn:E1; [|discriminate].
      apply collect_blocks_records in E1 as (em1 & -> & Hg1 & Hr1).
      cbn [bind] in H.
      apply IH in H as (em & -> & Habout).
      exists (em1 ++ em).
      rewrite record_errors_app, filter_app, Hr1, Habout, Hg1.
      repeat split. now rewrite app_assoc.
Qed.

End RecordMessages.

(** C4. Of the records that define an identifier, read in the order of
    the sorted files, the model keeps the first, made of that record alone;
    each later one adds exactly one duplicate message, naming its own file
    and the file of the first, and is skipped entirely: the model stays as
    it is, the record's fields are not normalized, and nothing else is
    recorded about it. So all that is recorded about the identifier is
    what the normalization of the first record says, and then the
    duplicate messages. Two records for one identifier give exactly one
    duplicate message. *)
Theorem duplicate_id_reported_once
        (fromisoformat : string -> date + string)
        (country_root : list (Path * file_content)) (errors : list error) (x : string) :
  forallb loadable country_root = true ->
  (forall yaml_path d divisions errs first,
      dict_get d "id" = YStr x ->
      divisions_get divisions x = Some first ->
      collect_block fromisoformat yaml_path (YMap d) (divisions, errs)
        = Ret (divisions,
               errs ++ [ErrDuplicateId yaml_path x (Division.file first)])) /\
  exists divisions emitted,
    collect_divisions fromisoformat country_root errors
      = Ret (divisions, errors ++ emitted) /\
    match definitions x (sort_by fst path_ltb country_root) with
    | [] =>
        divisions_get divisions x = None /\
        filter (is_duplicate_error x) emitted = [] /\
        filter (about_record x) emitted = []
    | (p0, d0) :: later =>
        divisions_get divisions x = Some (division_of fromisoformat p0 x d0) /\
        filter (is_duplicate_error x) emitted
          = map (fun pd => ErrDuplicateId (fst pd) x p0) later /\
        (forall p1 d1, later = [(p1, d1)] ->
           filter (is_duplicate_error x) emitted = [ErrDuplicateId p1 x p0]) /\
        filter (about_record x) emitted
          = field_errors fromisoformat p0 x d0
            ++ map (fun pd => ErrDuplicateId (fst pd) x p0) later
    end.
Proof.
  intros Hload. split.
  { intros yaml_path d divisions errs first Hid Hget.
    unfold collect_block. cbn [as_dict bind]. now rewrite Hid, Hget. }
  apply sort_by_loadable in Hload.
  unfold collect_divisions.
  destruct (collect_files_returns fromisoformat _ Hload ([], errors))
    as (divisions & emitted & Hrun).
  cbn [snd] in Hrun. exists divisions, emitted. split; [exact Hrun|].
  pose proof Hrun as Hrun'.
  apply (collect_files_duplicates fromisoformat x) in Hrun as (em & Heq & Hget & Hdup).
  apply app_inv_head in Heq. subst em.
  apply (collect_files_records fromisoformat x) in Hrun' as (em & Heq & Habout).
  apply app_inv_head in Heq. subst em.
  cbn [divisions_get] in Hget, Hdup, Habout.
  destruct (definitions x (sort_by fst path_ltb country_root)) as [|[p0 d0] later].
  - repeat split; assumption.
  - cbn [retained duplicate_errors record_errors] in Hget, Hdup, Habout.
    repeat split; try assumption.
    intros p1 d1 ->. exact Hdup.
Qed.

Lemma duplicate_id_reported_once_witness :
  let iso := fun _ : string => @inr date string "Invalid isoformat string" in
  let record parent :=
    [(YStr "id", YStr "X"); (YStr "parent", YStr parent); (YStr "from", YInt 1838)] in
  let file name parent :=
    (["norway"; name],
     Parsed (YMap [(YStr "divisions", YList [YMap (record parent)])])) in
  exists divisions emitted,
    collect_divisions iso [file "b.yaml" "P"; file "a.yaml" "Q"] []
      = Ret (divisions, [] ++ emitted) /\
    divisions_get divisions "X"
      = Some (division_of iso ["norway"; "a.yaml"] "X" (record "Q")) /\
    filter (is_duplicate_error "X") emitted
      = [ErrDuplicateId ["norway"; "b.yaml"] "X" ["norway"; "a.yaml"]] /\
    filter (about_record "X") emitted
      = [ErrDateType (CtxDivision ["norway"; "a.yaml"] "X") (YInt 1838);
         ErrDuplicateId ["norway"; "b.yaml"] "X" ["norway"; "a.yaml"]].
Proof.
  intros iso record file.
  destruct (duplicate_id_reported_once iso
              [file "b.yaml" "P"; file "a.yaml" "Q"] [] "X" eq_refl)
    as (_ & divisions & emitted & Hrun & Hget & _ & Hone & Habout).
  exists divisions, emitted.
  split; [exact Hrun|]. split; [exact Hget|].
  split; [exact (Hone _ _ eq_refl) | exact Habout].
Defined.

(** ** Lineage *)

Lemma relation_item_emit (ctx : context) (item : yaml)
      (ids : list string) (errors extra : list error) :
  relation_item ctx item (ids, errors ++ extra) =
  (fst (relation_item ctx item (ids, extra)),
   errors ++ snd (relation_item ctx item (ids, extra))).
Proof.
  destruct item; simpl; rewrite ?app_assoc; try reflexivity.
  destruct (dict_find "id" items) as [[]|]; simpl; rewrite ?app_assoc; reflexivity.
Qed.

Lemma normalize_relation_emit (value : yaml) (ctx : context) (errors : list error) :
  normalize_relation value ctx errors =
  (fst (normalize_relation value ctx []), errors ++ snd (normalize_relation value ctx [])).
Proof.
  destruct value; simpl; rewrite ?app_nil_r; try reflexivity.
  assert (H : forall ids extra,
             fold_left (fun st item => relation_item ctx item st) items
                       (ids, errors ++ extra) =
             (fst (fold_left (fun st item => relation_item ctx item st) items (ids, extra)),
              errors ++ snd (fold_left (fun st item => relation_item ctx item st)
                                       items (ids, extra)))).
  { induction items as [|item items IH]; intros ids extra; cbn [fold_left];
      [reflexivity|].
    rewrite relation_item_emit.
    destruct (relation_item ctx item (ids, extra)) as [ids' extra']. apply IH. }
  specialize (H [] []). rewrite app_nil_r in H. exact H.
Qed.

Lemma check_target_emit (divisions : divisions_t) (source : Division.t)
      (field counterpart target_id : string) (errors : list error) :
  check_target divisions source field counterpart target_id errors =
  errors ++ check_target divisions source field counterpart target_id [].
Proof.
  unfold check_target.
  destruct (divisions_get divisions target_id) as [target|]; [|reflexivity].
  rewrite normalize_relation_emit.
  rewrite (normalize_relation_emit _ _ []). cbv beta iota zeta. simpl.
  destruct (negb _); rewrite ?app_assoc; reflexivity.
Qed.

Lemma check_target_nil (divisions : divisions_t) (source : Division.t)
      (field counterpart target_id : string) :
  check_target divisions source field counterpart target_id [] =
  match divisions_get divisions target_id with
  | None =>
      [ErrUnknownId (Division.file source) (Division.id source) field target_id]
  | Some target =>
      relation_errors target counterpart ++
      if str_mem (Division.id source) (relation_ids target counterpart) then []
      else [ErrLineageMismatch (Division.file source) (Division.id source)
                               field target_id counterpart]
  end.
Proof.
  unfold check_target, relation_errors, relation_ids.
  destruct (divisions_get divisions target_id) as [target|]; [|reflexivity].
  destruct (normalize_relation _ _ []) as [ids errs]. simpl.
  destruct (str_mem (Division.id source) ids); simpl; now rewrite ?app_nil_r.
Qed.

Lemma check_relation_emit (divisions : divisions_t) (source : Division.t)
      (field counterpart : string) (errors : list error) :
  check_relation divisions source field counterpart errors =
  errors ++ relation_errors source field
         ++ flat_map (fun target_id =>
                        check_target divisions source field counterpart target_id [])
                     (relation_ids source field).
Proof.
  unfold check_relation, relation_errors, relation_ids.
  rewrite normalize_relation_emit.
  destruct (normalize_relation _ _ []) as [ids errs]. cbv beta iota zeta. cbn [fst snd].
  rewrite (fold_left_emit
             (fun target_id errs =>
                check_target divisions source field counterpart target_id errs)
             (fun target_id =>
                check_target divisions source field counterpart target_id [])).
  - now rewrite app_assoc.
  - intros; apply check_target_emit.
Qed.

(** What the lineage pass appends for one Division: its was list checked
    against became, then its became list against was. *)
Lemma validate_lineage_emit (divisions : divisions_t) (errors : list error) :
  validate_lineage divisions errors =
  errors ++ flat_map (fun div => check_relation divisions div "was" "became" []
                                 ++ check_relation divisions div "became" "was" [])
                     (divisions_values divisions).
Proof.
  unfold validate_lineage.
  apply (fold_left_emit
           (fun div errs => check_relation divisions div "became" "was"
                              (check_relation divisions div "was" "became" errs))).
  intros div errs.
  rewrite (check_relation_emit _ _ "became"), (check_relation_emit _ _ "was").
  rewrite !check_relation_emit. simpl. now rewrite <- !app_assoc.
Qed.

(** C7. For every Division and every identifier it lists under became
    (under was), the lineage pass records the unknown-id message when the
    model holds no such Division, and the mismatch message when it holds
    one whose was list (became list) lacks the Division's identifier. For
    A.became = [B]: with B.was empty exactly one message, the mismatch seen
    from became, is appended; with B.was = [A] nothing is. *)
Theorem validate_lineage_reciprocity
        (divisions : divisions_t) (errors : list error)
        (source : Division.t) (field counterpart target_id : string) :
  In source (divisions_values divisions) ->
  (field = "became" /\ counterpart = "was") \/
  (field = "was" /\ counterpart = "became") ->
  In target_id (relation_ids source field) ->
  (exists emitted,
     validate_lineage divisions errors = errors ++ emitted /\
     match divisions_get divisions target_id with
     | None =>
         In (ErrUnknownId (Division.file source) (Division.id source) field target_id)
            emitted
     | Some target =>
         str_mem (Division.id source) (relation_ids target counterpart) = false ->
         In (ErrLineageMismatch (Division.file source) (Division.id source)
                                field target_id counterpart) emitted
     end) /\
  (forall fa fb,
     validate_lineage [("A", example_A fa); ("B", example_B fb [])] errors
       = errors ++ [ErrLineageMismatch fa "A" "became" "B" "was"] /\
     validate_lineage [("A", example_A fa); ("B", example_B fb [YStr "A"])] errors
       = errors).
Proof.
  intros Hin Hfield Hid. split.
  - eexists; split; [apply validate_lineage_emit|].
    assert (Hsub : forall e,
               In e (check_target divisions source field counterpart target_id []) ->
               In e (flat_map
                       (fun div => check_relation divisions div "was" "became" []
                                   ++ check_relation divisions div "became" "was" [])
                       (divisions_values divisions))).
    { intros e He. apply in_flat_map. exists source. split; [assumption|].
      apply in_or_app.
      destruct Hfield as [[-> ->]|[-> ->]]; [right|left];
        rewrite check_relation_emit; cbn [app];
        apply in_or_app; right; apply in_flat_map; exists target_id; auto. }
    rewrite check_target_nil in Hsub.
    destruct (divisions_get divisions target_id) as [target|].
    + intros Hno. apply Hsub. rewrite Hno. apply in_or_app. right. now left.
    + apply Hsub. now left.
  - intros fa fb. split.
    + rewrite validate_lineage_emit. reflexivity.
    + rewrite validate_lineage_emit. cbn. now rewrite app_nil_r.
Qed.

Lemma validate_lineage_reciprocity_witness :
  let fa := ["norway"; "a.yaml"] in
  let fb := ["norway"; "b.yaml"] in
  let divisions := [("A", example_A fa); ("B", example_B fb [])] in
  (exists emitted,
     validate_lineage divisions [] = [] ++ emitted /\
     In (ErrLineageMismatch fa "A" "became" "B" "was") emitted) /\
  validate_lineage [("A", example_A fa); ("B", example_B fb [YStr "A"])] [] = [].
Proof.
  intros fa fb divisions.
  destruct (validate_lineage_reciprocity divisions [] (example_A fa)
              "became" "was" "B")
    as [(emitted & Hrun & Hmis) Hex].
  - simpl; auto.
  - left; split; reflexivity.
  - simpl; auto.
  - split.
    + exists emitted. split; [exact Hrun|]. exact (Hmis eq_refl).
    + exact (proj2 (Hex fa fb)).
Defined.

(** ** Normalization messages of relation fields *)

Lemma model_ok_tail (k : string) (v : Division.t) (divisions : divisions_t) :
  model_ok ((k, v) :: divisions) ->
  Division.id v = k /\ ~ In k (divisions_keys divisions) /\ model_ok divisions.
Proof.
  intros [Hnd Hkeys]. simpl in Hnd, Hkeys.
  inversion Hnd; subst. injection Hkeys as Hk Hrest.
  repeat split; auto.
Qed.

Lemma model_ok_get_id (divisions : divisions_t) (k : string) (v : Division.t) :
  model_ok divisions -> divisions_get divisions k = Some v -> Division.id v = k.
Proof.
  induction divisions as [|[k0 v0] ds IH]; simpl; intros Hok Hget; [discriminate|].
  apply model_ok_tail in Hok as (Hid & _ & Hok).
  destruct (k0 =? k) eqn:E.
  - apply String.eqb_eq in E. injection Hget as <-. congruence.
  - auto.
Qed.

Lemma model_ok_get (divisions : divisions_t) (div : Division.t) :
  model_ok divisions -> In div (divisions_values divisions) ->
  divisions_get divisions (Division.id div) = Some div.
Proof.
  induction divisions as [|[k0 v0] ds IH]; simpl; intros Hok Hin; [tauto|].
  pose proof Hok as [_ Hkeys].
  apply model_ok_tail in Hok as (Hid & Hnotin & Hok).
  destruct Hin as [->|Hin].
  - rewrite <- Hid, String.eqb_refl. reflexivity.
  - destruct (k0 =? Division.id div) eqn:E; [|auto].
    apply String.eqb_eq in E. exfalso. apply Hnotin.
    destruct Hok as [_ Hk]. rewrite Hk, E. now apply in_map.
Qed.

Lemma model_ok_once (divisions : divisions_t) (div : Division.t) :
  model_ok divisions -> In div (divisions_values divisions) ->
  List.length (filter (fun s => Division.id s =? Division.id div)
                      (divisions_values divisions)) = 1.
Proof.
  intros [Hnd Hkeys]. rewrite Hkeys in Hnd. clear Hkeys.
  induction (divisions_values divisions) as [|s l IH]; simpl; intros Hin; [tauto|].
  inversion Hnd as [|? ? Hnotin Hnd']; subst.
  destruct Hin as [->|Hin].
  - rewrite String.eqb_refl. simpl. f_equal.
    rewrite filter_none; [reflexivity|].
    intros s Hs. apply String.eqb_neq. intros E. apply Hnotin.
    rewrite <- E. now apply in_map.
  - destruct (Division.id s =? Division.id div) eqn:E; [|auto].
    apply String.eqb_eq in E. exfalso. apply Hnotin. rewrite E. now apply in_map.
Qed.

Section RelationErrors.
Variable divisions : divisions_t.
Variable div : Division.t.
Variables field counterpart : string.
Hypothesis Hok : model_ok divisions.
Hypothesis Hin : In div (divisions_values divisions).

Local Abbreviation mine := (filter (relation_error_of (Division.id div) field)).

Lemma normalize_relation_about (value : yaml) (file : Path) (i f : string) (e : error) :
  In e (snd (normalize_relation value (CtxField file i f) [])) ->
  relation_error_of (Division.id div) field e
    = (i =? Division.id div) && (f =? field).
Proof.
  set (Q := fun e => relation_error_of (Division.id div) field e
                     = (i =? Division.id div) && (f =? field)).
  assert (Hstep : forall items ids errs,
             Forall Q errs ->
             Forall Q (snd (fold_left
                              (fun st item => relation_item (CtxField file i f) item st)
                              items (ids, errs)))).
  { induction items as [|item items IH]; intros ids errs HQ; cbn [fold_left];
      [exact HQ|].
    destruct (relation_item (CtxField file i f) item (ids, errs))
      as [ids' errs'] eqn:E.
    apply IH. unfold relation_item in E.
    assert (Hadd : forall e', Q e' -> Forall Q (errs ++ [e'])).
    { intros e' He'. apply Forall_app. split; [assumption|]. now constructor. }
    destruct item as [| | | | | | | |m| | |];
      try (injection E as <- <-; first [assumption | apply Hadd; reflexivity]).
    destruct (dict_find "id" m) as [[]|];
      injection E as <- <-; first [assumption | apply Hadd; reflexivity]. }
  intros He.
  assert (HQ : Forall Q (snd (normalize_relation value (CtxField file i f) []))).
  { destruct value; simpl; try (repeat constructor).
    apply Hstep. constructor. }
  rewrite Forall_forall in HQ. now apply HQ.
Qed.

Lemma mine_relation_errors (source : Division.t) (f : string) :
  mine (relation_errors source f) =
  if (Division.id source =? Division.id div) && (f =? field)
  then relation_errors source f else [].
Proof.
  destruct ((Division.id source =? Division.id div) && (f =? field)) eqn:E.
  - apply filter_all. intros e He.
    rewrite (normalize_relation_about _ _ _ _ _ He). exact E.
  - apply filter_none. intros e He.
    rewrite (normalize_relation_about _ _ _ _ _ He). exact E.
Qed.

Lemma mine_check_target (source : Division.t) (f c target_id : string) :
  mine (check_target divisions source f c target_id []) =
  if (Division.id div =? target_id) && (c =? field)
  then relation_errors div field else [].
Proof.
  rewrite check_target_nil.
  destruct (divisions_get divisions target_id) as [target|] eqn:Eg.
  - rewrite filter_app, mine_relation_errors.
    assert (Hmis : forall b : bool,
               mine (if b then []
                     else [ErrLineageMismatch (Division.file source)
                             (Division.id source) f target_id c]) = [])
      by (intros []; reflexivity).
    rewrite Hmis, app_nil_r.
    pose proof (model_ok_get_id _ _ _ Hok Eg) as Hid. rewrite Hid.
    rewrite (String.eqb_sym target_id).
    destruct ((Division.id div =? target_id) && (c =? field)) eqn:E; [|reflexivity].
    apply andb_prop in E as [E1 E2].
    apply String.eqb_eq in E1, E2. rewrite <- E1 in Eg. rewrite E2.
    rewrite (model_ok_get _ _ Hok Hin) in Eg. now injection Eg as <-.
  - destruct (Division.id div =? target_id) eqn:E; [|reflexivity].
    apply String.eqb_eq in E. rewrite <- E in Eg.
    rewrite (model_ok_get _ _ Hok Hin) in Eg. discriminate.
Qed.

Lemma mine_check_targets (source : Division.t) (f c : string) (ids : list string) :
  List.length (mine (flat_map (fun t => check_target divisions source f c t []) ids)) =
  if c =? field
  then List.length (relation_errors div field)
       * List.length (filter (String.eqb (Division.id div)) ids)
  else 0.
Proof.
  induction ids as [|t ids IH]; cbn [flat_map filter].
  - destruct (c =? field); simpl; lia.
  - rewrite filter_app, length_app, IH, mine_check_target.
    destruct (c =? field), (Division.id div =? t); cbn [andb List.length];
      rewrite ?Nat.mul_succ_r; lia.
Qed.

Lemma mine_check_relation (source : Division.t) (f c : string) :
  In source (divisions_values divisions) ->
  List.length (mine (check_relation divisions source f c [])) =
  (if (Division.id source =? Division.id div) && (f =? field)
   then List.length (relation_errors div field) else 0)
  + (if c =? field
     then List.length (relation_errors div field)
          * List.length (filter (String.eqb (Division.id div)) (relation_ids source f))
     else 0).
Proof.
  intros Hsource. rewrite check_relation_emit. cbn [app].
  rewrite filter_app, length_app, mine_check_targets, mine_relation_errors.
  f_equal.
  destruct ((Division.id source =? Division.id div) && (f =? field)) eqn:E;
    [|reflexivity].
  apply andb_prop in E as [E1 E2]. apply String.eqb_eq in E1, E2. subst f.
  assert (Some source = Some div) as [= ->]; [|reflexivity].
  rewrite <- (model_ok_get _ _ Hok Hsource), E1. now apply model_ok_get.
Qed.
End RelationErrors.

Lemma relation_errors_count (divisions : divisions_t) (div : Division.t)
      (field counterpart : string) (l : list Division.t) :
  model_ok divisions ->
  In div (divisions_values divisions) ->
  (field = "was" /\ counterpart = "became") \/
  (field = "became" /\ counterpart = "was") ->
  incl l (divisions_values divisions) ->
  List.length
    (filter (relation_error_of (Division.id div) field)
       (flat_map (fun s => check_relation divisions s "was" "became" []
                           ++ check_relation divisions s "became" "was" []) l))
  = List.length (relation_errors div field)
    * (List.length (filter (fun s => Division.id s =? Division.id div) l)
       + List.length (filter (String.eqb (Division.id div))
                        (flat_map (fun s => relation_ids s counterpart) l))).
Proof.
  intros Hok Hin Hfield.
  assert (Ebw : ("became" =? "was") = false) by reflexivity.
  assert (Ewb : ("was" =? "became") = false) by reflexivity.
  induction l as [|s l IH]; intros Hincl; cbn [flat_map filter].
  - simpl. lia.
  - assert (Hs : In s (divisions_values divisions)) by (apply Hincl; now left).
    rewrite !filter_app, !length_app, IH
      by (intros z Hz; apply Hincl; now right).
    rewrite !(mine_check_relation divisions div field Hok Hin) by assumption.
    destruct Hfield as [[-> ->]|[-> ->]];
      rewrite ?String.eqb_refl, ?Ebw, ?Ewb, ?andb_true_r, ?andb_false_r;
      destruct (Division.id s =? Division.id div); cbn [List.length]; nia.
Qed.

(** C3 (as the code has it). The loader does not read the relation
    fields; the lineage pass normalizes a Division's was (became) list
    each time it reads it: once when the Division itself is checked, and
    once more for every entry of a became (was) list of the model that
    names the Division. Each reading appends the list's normalization
    messages again. *)
Theorem relation_errors_per_reading
        (divisions : divisions_t) (errors : list error) (div : Division.t)
        (field counterpart : string) :
  model_ok divisions ->
  In div (divisions_values divisions) ->
  (field = "was" /\ counterpart = "became") \/
  (field = "became" /\ counterpart = "was") ->
  exists emitted,
    validate_lineage divisions errors = errors ++ emitted /\
    List.length (filter (relation_error_of (Division.id div) field) emitted)
    = List.length (relation_errors div field)
      * (1 + references divisions (Division.id div) counterpart).
Proof.
  intros Hok Hin Hfield.
  eexists; split; [apply validate_lineage_emit|].
  rewrite (relation_errors_count divisions div field counterpart _ Hok Hin Hfield)
    by apply incl_refl.
  rewrite (model_ok_once _ _ Hok Hin). reflexivity.
Qed.

Lemma relation_errors_per_reading_witness :
  let file := ["norway"; "a.yaml"] in
  let divisions := [("A", example_A file); ("B", example_B file [YInt 42])] in
  exists emitted,
    validate_lineage divisions [] = [] ++ emitted /\
    List.length (filter (relation_error_of "B" "was") emitted) = 1 * (1 + 1).
Proof.
  intros file divisions.
  apply (relation_errors_per_reading divisions [] (example_B file [YInt 42])
           "was" "became").
  - split; [repeat constructor; simpl; intuition discriminate | reflexivity].
  - simpl; auto.
  - left; split; reflexivity.
Defined.

(** C3 (as stated, refuted). A.became = [B] and B.was = [42]: the one
    malformed item of B's was list is reported twice in the run, once
    when A's became entry is checked and once when B itself is. *)
Lemma malformed_relation_item_reported_twice :
  let iso := fun _ : string => @inr date string "Invalid isoformat string" in
  let file := ["norway"; "a.yaml"] in
  let listing :=
    [(file,
      Parsed (YMap [(YStr "divisions",
        YList [YMap [(YStr "id", YStr "A"); (YStr "parent", YBool false);
                     (YStr "became", YList [YStr "B"])];
               YMap [(YStr "id", YStr "B"); (YStr "parent", YBool false);
                     (YStr "was", YList [YInt 42])]])]))] in
  let message := ErrRelationItem (CtxField file "B" "was") (YInt 42) in
  exists divisions errors0,
    collect_divisions iso listing [] = Ret (divisions, errors0) /\
    validate_all divisions errors0 =
      [message;
       ErrLineageMismatch file "A" "became" "B" "was";
       message] /\
    List.length (filter (relation_error_of "B" "was") (validate_all divisions errors0))
      <> 1.
Proof.
  intros iso file listing message.
  eexists; eexists. split; [reflexivity|]. split; [reflexivity|].
  vm_compute. discriminate.
Qed.

(** ** The walk over a group *)

Lemma days_in_month_le (y m : Z) : (days_in_month y m <= 31)%Z.
Proof.
  unfold days_in_month.
  destruct (m =? 2)%Z; [destruct (is_leap y); lia|].
  destruct ((m =? 4) || (m =? 6) || (m =? 9) || (m =? 11))%Z; lia.
Qed.

Lemma date_leb_max (d : date) : date_valid d = true -> date_leb d date_max = true.
Proof.
  unfold date_valid, date_leb, date_ltb, date_eqb, date_max.
  destruct d as [y m d]; cbn [year month day]. intros H.
  rewrite !andb_true_iff, !Z.leb_le in H.
  pose proof (days_in_month_le y m).
  destruct (Z.ltb_spec y 9999), (Z.eqb_spec y 9999),
           (Z.ltb_spec m 12), (Z.eqb_spec m 12),
           (Z.ltb_spec d 31), (Z.eqb_spec d 31);
    cbn [orb andb]; try reflexivity; lia.
Qed.

Lemma overlap_step_emit (base : string) (div : Division.t)
      (last_to : option date) (errors : list error) :
  overlap_step base div (last_to, errors) =
  (Some (closing_date div), errors ++ snd (overlap_step base div (last_to, []))).
Proof.
  unfold overlap_step, closing_date. f_equal. simpl.
  destruct last_to as [l|], (Division.from_date div) as [f|];
    rewrite ?app_nil_r; try reflexivity.
  destruct (date_leb f l); now rewrite ?app_nil_r.
Qed.

Lemma walk_group_emit (base : string) (subset : list Division.t) :
  forall last_to errors,
    snd (walk_group base subset (last_to, errors)) =
    errors ++ snd (walk_group base subset (last_to, [])).
Proof.
  unfold walk_group.
  induction subset as [|div subset IH]; intros last_to errors; cbn [fold_left].
  - simpl. now rewrite app_nil_r.
  - rewrite overlap_step_emit.
    pose proof (overlap_step_emit base div last_to []) as E.
    destruct (overlap_step base div (last_to, [])) as [last_to' emitted].
    injection E as ->. cbn [snd].
    rewrite IH, (IH _ emitted). now rewrite app_assoc.
Qed.

Lemma walk_group_app (base : string) (l1 l2 : list Division.t)
      (st : option date * list error) :
  walk_group base (l1 ++ l2) st = walk_group base l2 (walk_group base l1 st).
Proof. apply fold_left_app. Qed.

(** The running value after a Division is that Division's own end. *)
Lemma walk_group_last_to (base : string) (l : list Division.t) (div : Division.t)
      (st : option date * list error) :
  fst (walk_group base (l ++ [div]) st) = Some (closing_date div).
Proof.
  rewrite walk_group_app. unfold walk_group at 1. cbn [fold_left].
  destruct (walk_group base l st) as [last_to errors].
  now rewrite overlap_step_emit.
Qed.

Lemma check_group_emit (errors : list error) (g : string * list Division.t) :
  check_group errors g = errors ++ check_group [] g.
Proof.
  destruct g as [base subset]. unfold check_group. apply walk_group_emit.
Qed.

Lemma group_and_check_groups (l : list Division.t) :
  forall groups errors errors',
    fst (fold_left (fun st div => group_and_check div st) l (groups, errors)) =
    fst (fold_left (fun st div => group_and_check div st) l (groups, errors')).
Proof.
  induction l as [|div l IH]; intros groups errors errors'; cbn [fold_left];
    [reflexivity|].
  unfold group_and_check at 2 4.
  destruct (Division.from_date div) as [f|], (Division.to_date div) as [t|];
    try destruct (date_gtb f t); apply IH.
Qed.

Lemma group_and_check_errors (l : list Division.t) :
  forall groups errors,
    exists inverted,
      snd (fold_left (fun st div => group_and_check div st) l (groups, errors)) =
      errors ++ inverted.
Proof.
  induction l as [|div l IH]; intros groups errors; cbn [fold_left].
  - exists []. simpl. now rewrite app_nil_r.
  - unfold group_and_check at 2.
    destruct (Division.from_date div) as [f|], (Division.to_date div) as [t|];
      try destruct (date_gtb f t);
      try (destruct (IH (groups_append groups (Division.base_id div) div) errors)
            as [inv ->]; now exists inv).
    destruct (IH (groups_append groups (Division.base_id div) div)
                 (errors ++ [ErrInvertedRange (Division.file div) (Division.id div) f t]))
      as [inv ->].
    eexists. now rewrite <- app_assoc.
Qed.

(** What the date pass appends: the inverted ranges, then the overlaps of
    each group. *)
Lemma validate_dates_emit (divisions : divisions_t) (errors : list error) :
  exists inverted,
    validate_dates divisions errors =
    errors ++ inverted ++ flat_map (check_group []) (date_groups divisions).
Proof.
  assert (He : exists inv, snd (group_divisions divisions errors) = errors ++ inv)
    by apply group_and_check_errors.
  assert (Hg : fst (group_divisions divisions errors) = date_groups divisions)
    by apply group_and_check_groups.
  destruct He as [inv He]. exists inv.
  unfold validate_dates.
  destruct (group_divisions divisions errors) as [groups errors1].
  cbn [fst snd] in Hg, He. subst groups errors1.
  rewrite (fold_left_emit (fun g errs => check_group errs g) (check_group [])).
  - now rewrite app_assoc.
  - intros; apply check_group_emit.
Qed.

(** C1 (as the code has it). While a sorted group is walked, the running
    value after a Division is that Division's own end of validity, the
    latest date when it has none, whatever the value was before; it is not
    a maximum. So the Division that comes right after one without an end
    is reported as an overlap when it has a start. *)
Theorem last_to_is_previous_end
        (divisions : divisions_t) (errors : list error)
        (base : string) (subset l1 l2 : list Division.t)
        (prev next : Division.t) (f : date) :
  In (base, subset) (date_groups divisions) ->
  sort_by sort_key key_ltb subset = l1 ++ prev :: next :: l2 ->
  Division.to_date prev = None ->
  Division.from_date next = Some f ->
  date_valid f = true ->
  (forall l div st, fst (walk_group base (l ++ [div]) st) = Some (closing_date div)) /\
  (forall st, fst (walk_group base (l1 ++ [prev]) st) = Some date_max) /\
  exists emitted,
    validate_dates divisions errors = errors ++ emitted /\
    In (ErrOverlap base (Division.file next) (Division.id next) f date_max) emitted.
Proof.
  intros Hgroup Hsorted Hto Hfrom Hvalid.
  split; [intros; apply walk_group_last_to|].
  assert (Hprev : forall st, fst (walk_group base (l1 ++ [prev]) st) = Some date_max).
  { intros st. rewrite walk_group_last_to. unfold closing_date. now rewrite Hto. }
  split; [exact Hprev|].
  destruct (validate_dates_emit divisions errors) as [inv ->].
  eexists; split; [reflexivity|].
  apply in_or_app. right. apply in_flat_map.
  exists (base, subset). split; [assumption|].
  unfold check_group. rewrite Hsorted.
  change (l1 ++ prev :: next :: l2) with (l1 ++ [prev] ++ next :: l2).
  rewrite app_assoc, walk_group_app.
  specialize (Hprev (None, [])).
  destruct (walk_group base (l1 ++ [prev]) (None, [])) as [last_to errs].
  cbn [fst] in Hprev. subst last_to.
  assert (Hstep : overlap_step base next (Some date_max, errs) =
                  (Some (closing_date next),
                   errs ++ [ErrOverlap base (Division.file next) (Division.id next)
                                       f date_max])).
  { unfold overlap_step, closing_date. cbv beta iota zeta.
    rewrite Hfrom, (date_leb_max _ Hvalid). reflexivity. }
  change (next :: l2) with ([next] ++ l2). rewrite walk_group_app.
  change (walk_group base [next] (Some date_max, errs))
    with (overlap_step base next (Some date_max, errs)).
  rewrite Hstep, walk_group_emit. apply in_or_app. left. apply in_or_app. right. now left.
Qed.

Lemma last_to_is_previous_end_witness :
  let a := example_variant "1" (mkDate 2000 1 1) None in
  let b := example_variant "2" (mkDate 2001 1 1) (Some (mkDate 2002 12 31)) in
  let c := example_variant "3" (mkDate 2005 1 1) (Some (mkDate 2006 12 31)) in
  let divisions := [("R:3", c); ("R:2", b); ("R:1", a)] in
  exists emitted,
    validate_dates divisions [] = [] ++ emitted /\
    In (ErrOverlap "R" (Division.file b) "R:2" (mkDate 2001 1 1) date_max) emitted.
Proof.
  intros a b c divisions.
  apply (last_to_is_previous_end divisions [] "R" [c; b; a] [] [c] a b (mkDate 2001 1 1)).
  - simpl; auto.
  - reflexivity.
  - reflexivity.
  - reflexivity.
  - reflexivity.
Defined.

(** C1 (as stated, refuted). R:1 from 2000-01-01 without end, R:2 from
    2001-01-01 to 2002-12-31, R:3 from 2005-01-01 to 2006-12-31. After R:2
    the running value is 2002-12-31, not the maximum of the latest date
    and 2002-12-31; and R:3, which has a start and comes after R:1, is not
    reported: the pass records the overlap of R:2 alone. *)
Lemma last_to_is_not_running_maximum :
  let a := example_variant "1" (mkDate 2000 1 1) None in
  let b := example_variant "2" (mkDate 2001 1 1) (Some (mkDate 2002 12 31)) in
  let c := example_variant "3" (mkDate 2005 1 1) (Some (mkDate 2006 12 31)) in
  let divisions := [("R:1", a); ("R:2", b); ("R:3", c)] in
  date_groups divisions = [("R", [a; b; c])] /\
  sort_by sort_key key_ltb [a; b; c] = [a; b; c] /\
  fst (walk_group "R" [a] (None, [])) = Some date_max /\
  fst (walk_group "R" [a; b] (None, [])) = Some (mkDate 2002 12 31) /\
  running_maximum (fst (walk_group "R" [a] (None, []))) b = date_max /\
  fst (walk_group "R" [a; b] (None, []))
    <> Some (running_maximum (fst (walk_group "R" [a] (None, []))) b) /\
  validate_dates divisions [] =
    [ErrOverlap "R" ["norway"; "r.yaml"] "R:2" (mkDate 2001 1 1) date_max] /\
  ~ In (ErrOverlap "R" ["norway"; "r.yaml"] "R:3" (mkDate 2005 1 1) date_max)
       (validate_dates divisions []).
Proof.
  intros a b c divisions.
  repeat split; try reflexivity.
  - vm_compute. discriminate.
  - vm_compute. intros [H|[]]. discriminate.
Qed.

(** ** The model the loader builds *)

Lemma divisions_set_new (divisions : divisions_t) (k : string) (v : Division.t) :
  divisions_get divisions k = None ->
  divisions_set divisions k v = divisions ++ [(k, v)].
Proof.
  induction divisions as [|[k0 v0] ds IH]; simpl; intros H; [reflexivity|].
  destruct (k0 =? k); [discriminate|]. now rewrite IH.
Qed.

Lemma divisions_get_none (divisions : divisions_t) (k : string) :
  divisions_get divisions k = None -> ~ In k (divisions_keys divisions).
Proof.
  induction divisions as [|[k0 v0] ds IH]; simpl; intros H; [tauto|].
  destruct (k0 =? k) eqn:E; [discriminate|].
  apply String.eqb_neq in E. intros [Hk|Hk]; [contradiction|]. now apply IH.
Qed.

Lemma model_ok_add (divisions : divisions_t) (v : Division.t) :
  model_ok divisions ->
  divisions_get divisions (Division.id v) = None ->
  model_ok (divisions ++ [(Division.id v, v)]).
Proof.
  intros [Hnd Hkeys] Hget. unfold model_ok, divisions_keys, divisions_values in *.
  rewrite !map_app. cbn [map fst snd]. split.
  - apply NoDup_app_remove_l with (l := []). cbn [app].
    apply Permutation_NoDup with (l := Division.id v :: map fst divisions).
    + apply Permutation_cons_append.
    + constructor; [|assumption]. now apply divisions_get_none.
  - now rewrite Hkeys.
Qed.

Section LoadedModel.
Variable fromisoformat : string -> date + string.

Lemma block_effect_model_ok (yaml_path : Path) (d : ydict) (divisions : divisions_t) :
  model_ok divisions ->
  model_ok (fst (block_effect fromisoformat yaml_path d divisions)).
Proof.
  intros Hok. unfold block_effect.
  destruct (dict_get d "id"); try assumption.
  destruct (divisions_get divisions s) eqn:E; [assumption|].
  cbn [fst]. rewrite divisions_set_new by assumption.
  apply (model_ok_add divisions (division_of fromisoformat yaml_path s d) Hok E).
Qed.

Lemma collect_blocks_model_ok (yaml_path : Path) (blocks : list yaml) :
  forall st st',
    collect_blocks fromisoformat yaml_path blocks st = Ret st' ->
    model_ok (fst st) -> model_ok (fst st').
Proof.
  induction blocks as [|b bs IH]; intros [ds es] st' H Hok.
  - simpl in H. now injection H as <-.
  - cbn [collect_blocks] in H.
    destruct (is_mapping b) eqn:Eb;
      [|rewrite collect_block_other in H by assumption; discriminate].
    destruct b; try discriminate.
    rewrite collect_block_mapping in H. cbn [bind] in H.
    apply IH in H; [assumption|]. now apply block_effect_model_ok.
Qed.

Lemma collect_files_model_ok (files : list (Path * file_content)) :
  forall st st',
    collect_files fromisoformat files st = Ret st' ->
    model_ok (fst st) -> model_ok (fst st').
Proof.
  induction files as [|[p c] fs IH]; intros st st' H Hok.
  - simpl in H. now injection H as <-.
  - cbn [collect_files] in H. rewrite collect_file_blocks in H.
    cbn [fst snd] in H. destruct c as [| | exc | e0 | v];
      [discriminate | discriminate | | discriminate |].
    + cbn [bind] in H. apply IH in H; assumption.
    + destruct (file_blocks (Parsed v)) as [blocks|e]; [|discriminate].
      cbn [bind] in H.
      destruct (collect_blocks fromisoformat p blocks st) as [st1|e] eqn:E1;
        [|discriminate].
      cbn [bind] in H. apply IH in H; [assumption|].
      eapply collect_blocks_model_ok; eassumption.
Qed.

(** Every model the loader returns holds each identifier once, filed
    under the Division's own identifier. *)
Lemma collect_divisions_model_ok (country_root : list (Path * file_content))
      (errors : list error) (st : loader_state) :
  collect_divisions fromisoformat country_root errors = Ret st ->
  model_ok (fst st).
Proof.
  intros H. apply collect_files_model_ok in H; [assumption|].
  split; [constructor | reflexivity].
Qed.
End LoadedModel.

(** * Further properties *)

(** ** Field normalization *)

(** X1. Normalizing a date or a parent never loses a value silently: the
    result is a value and nothing is recorded, or the field was null and
    nothing is recorded, or the field was something else and exactly one
    message is appended and the result is absent. *)
Theorem field_normalization_never_silent
        (fromisoformat : string -> date + string)
        (value : yaml) (ctx : context) (errors : list error) :
  ((exists d, parse_date fromisoformat value ctx errors = (Some d, errors)) \/
   (value = YNull /\ parse_date fromisoformat value ctx errors = (None, errors)) \/
   (value <> YNull /\
    exists e, parse_date fromisoformat value ctx errors = (None, errors ++ [e]))) /\
  ((exists s, normalize_parent value ctx errors = (Some s, errors)) \/
   (value = YNull /\ normalize_parent value ctx errors = (None, errors)) \/
   (value <> YNull /\
    normalize_parent value ctx errors = (None, errors ++ [ErrParentType ctx value]))).
Proof.
  split.
  - destruct value; simpl;
      try (right; right; split; [discriminate | eexists; reflexivity]);
      try (left; eexists; reflexivity);
      try (right; left; split; reflexivity).
    destruct (fromisoformat s);
      [left; eexists; reflexivity
      |right; right; split; [discriminate | eexists; reflexivity]].
  - destruct value; simpl;
      try (right; right; split; [discriminate | reflexivity]);
      try (left; eexists; reflexivity);
      try (right; left; split; reflexivity).
Qed.

Lemma relation_item_count (ctx : context) (item : yaml)
      (ids : list string) (errors : list error) :
  List.length (fst (relation_item ctx item (ids, errors)))
  + List.length (snd (relation_item ctx item (ids, errors)))
  = S (List.length ids + List.length errors).
Proof.
  destruct item as [| | | | | | | |m| | |]; simpl; rewrite ?length_app; simpl; try lia.
  destruct (dict_find "id" m) as [[]|]; simpl; rewrite ?length_app; simpl; lia.
Qed.

(** X2. Every item of a relation list is accounted for: it gives one
    identifier or one message, never both and never neither, so the
    identifiers kept and the messages appended number as many as the
    items. *)
Theorem normalize_relation_accounts_for_items
        (items : list yaml) (ctx : context) (errors : list error) :
  List.length (fst (normalize_relation (YList items) ctx errors))
  + List.length (snd (normalize_relation (YList items) ctx errors))
  = List.length items + List.length errors.
Proof.
  simpl.
  assert (H : forall ids,
             List.length (fst (fold_left (fun st item => relation_item ctx item st)
                                         items (ids, errors)))
             + List.length (snd (fold_left (fun st item => relation_item ctx item st)
                                           items (ids, errors)))
             = List.length items + (List.length ids + List.length errors)).
  { revert errors. induction items as [|item items IH]; intros errors ids;
      cbn [fold_left]; [simpl; lia|].
    pose proof (relation_item_count ctx item ids errors) as Hc.
    destruct (relation_item ctx item (ids, errors)) as [ids' errors'].
    rewrite IH. cbn [fst snd] in Hc. simpl. lia. }
  apply (H []).
Qed.




(** X4. A record whose parent is the boolean false is given the parent
    "NO" and no message is recorded for it; the parent-link pass then
    records nothing about it, whatever the model holds. *)
Theorem parent_false_is_NO
        (fromisoformat : string -> date + string)
        (divisions : divisions_t) (errors : list error)
        (yaml_path : Path) (div_id : string) (d : ydict) :
  dict_get d "parent" = YBool false ->
  model_ok divisions ->
  In (division_of fromisoformat yaml_path div_id d) (divisions_values divisions) ->
  normalize_parent (dict_get d "parent") (CtxDivision yaml_path div_id) errors
    = (Some "NO", errors) /\
  exists emitted,
    validate_parent_links divisions errors = errors ++ emitted /\
    filter (parent_error_of div_id) emitted = [].
Proof.
  intros Hp Hok Hin.
  split; [now rewrite Hp|].
  eexists; split; [apply validate_parent_links_emit|].
  pose proof (parent_errors_of_division divisions _ Hok Hin) as Hown.
  change (Division.id (division_of fromisoformat yaml_path div_id d))
    with div_id in Hown.
  rewrite Hown. unfold parent_link_check, division_of. cbn [Division.parent].
  rewrite Hp. reflexivity.
Qed.

Lemma parent_false_is_NO_witness :
  let iso := fun _ : string => @inr date string "Invalid isoformat string" in
  let file := ["norway"; "n.yaml"] in
  let record := [(YStr "id", YStr "N"); (YStr "parent", YBool false)] in
  normalize_parent (dict_get record "parent") (CtxDivision file "N") []
    = (Some "NO", []) /\
  exists emitted,
    validate_parent_links [("N", division_of iso file "N" record)] [] = [] ++ emitted /\
    filter (parent_error_of "N") emitted = [].
Proof.
  intros iso file record.
  apply (parent_false_is_NO iso
           [("N", division_of iso file "N" record)] [] file "N" record).
  - reflexivity.
  - split; [repeat constructor; simpl; tauto | reflexivity].
  - simpl; auto.
Defined.

(** ** The base identifier *)

Lemma has_colon_app (s v : string) : has_colon (s ++ String ":" v) = true.
Proof.
  induction s as [|c s IH]; simpl; [reflexivity|].
  destruct (Ascii.eqb c ":"); [reflexivity | exact IH].
Qed.

(** X5. The base identifier is the identifier up to its last colon: an
    identifier without a colon is its own base, and [base:variant] with a
    variant free of colons has the base [base], whatever colons the base
    holds. *)
Theorem base_id_up_to_last_colon (base variant : string) :
  has_colon variant = false ->
  rsplit_colon_head variant = variant /\
  rsplit_colon_head (base ++ String ":" variant) = base.
Proof.
  intros Hv. split.
  - induction variant as [|c v IH]; simpl in *; [reflexivity|].
    destruct (Ascii.eqb c ":"); [discriminate|]. now rewrite Hv.
  - induction base as [|c s IH]; simpl.
    + now rewrite Hv.
    + now rewrite has_colon_app, IH.
Qed.

Lemma base_id_up_to_last_colon_witness :
  rsplit_colon_head "7" = "7" /\
  rsplit_colon_head ("NO:0301" ++ String ":" "7") = "NO:0301".
Proof.
  apply (base_id_up_to_last_colon "NO:0301" "7"). reflexivity.
Defined.

(** ** The loader: when it returns, and what it keeps *)


Section LoaderReturns.
Variable fromisoformat : string -> date + string.





Lemma field_errors_kinds (yaml_path : Path) (div_id : string) (d : ydict) (e : error) :
  In e (field_errors fromisoformat yaml_path div_id d) ->
  is_loader_error e = true /\ is_block_error e = false /\ is_yaml_error e = false.
Proof.
  unfold field_errors. intros He.
  assert (Hd : forall v ctx,
             In e (snd (parse_date fromisoformat v ctx [])) ->
             is_loader_error e = true /\ is_block_error e = false
             /\ is_yaml_error e = false).
  { intros v ctx. destruct v; simpl; try tauto;
      try (intros [<-|[]]; repeat split).
    destruct (fromisoformat s); simpl; [tauto|]. intros [<-|[]]; repeat split. }
  apply in_app_or in He as [He|He]; [now apply Hd in He|].
  apply in_app_or in He as [He|He]; [now apply Hd in He|].
  destruct (dict_get d "parent"); simpl in He; try tauto;
    destruct He as [<-|[]]; repeat split.
Qed.

Lemma block_effect_kinds (yaml_path : Path) (d : ydict) (divisions : divisions_t)
      (e : error) :
  In e (snd (block_effect fromisoformat yaml_path d divisions)) ->
  is_loader_error e = true /\ is_yaml_error e = false.
Proof.
  unfold block_effect.
  destruct (dict_get d "id"); try (intros [<-|[]]; split; reflexivity).
  destruct (divisions_get divisions s); [intros [<-|[]]; split; reflexivity|].
  cbn [snd]. intros He. apply field_errors_kinds in He. tauto.
Qed.

Lemma block_effect_count (yaml_path : Path) (d : ydict) (divisions : divisions_t) :
  List.length (fst (block_effect fromisoformat yaml_path d divisions))
  + List.length (filter is_block_error
                   (snd (block_effect fromisoformat yaml_path d divisions)))
  = S (List.length divisions).
Proof.
  unfold block_effect.
  destruct (dict_get d "id"); try (simpl; lia).
  destruct (divisions_get divisions s) eqn:E; [simpl; lia|].
  cbn [fst snd]. rewrite divisions_set_new by assumption.
  rewrite filter_none, length_app; [simpl; lia|].
  intros e He. apply field_errors_kinds in He. tauto.
Qed.

Lemma collect_blocks_count (yaml_path : Path) (blocks : list yaml) :
  forall divisions errors divisions' errors',
    collect_blocks fromisoformat yaml_path blocks (divisions, errors)
      = Ret (divisions', errors') ->
    exists emitted,
      errors' = errors ++ emitted /\
      Forall (fun e => is_loader_error e = true /\ is_yaml_error e = false) emitted /\
      List.length divisions' + List.length (filter is_block_error emitted)
      = List.length divisions + List.length blocks.
Proof.
  induction blocks as [|b bs IH]; intros divisions errors divisions' errors' H.
  - simpl in H. injection H as <- <-. exists []. rewrite app_nil_r. simpl.
    repeat split; try constructor; try lia.
  - cbn [collect_blocks] in H.
    destruct (is_mapping b) eqn:Eb;
      [|rewrite collect_block_other in H by assumption; discriminate].
    destruct b; try discriminate.
    rewrite collect_block_mapping in H. cbn [bind] in H.
    apply IH in H as (em & -> & Hk & Hcount).
    pose proof (block_effect_count yaml_path items divisions) as Hc.
    exists (snd (block_effect fromisoformat yaml_path items divisions) ++ em).
    rewrite filter_app, length_app, app_assoc. repeat split.
    + apply Forall_app. split; [|assumption].
      apply Forall_forall. intros e He. now apply block_effect_kinds in He.
    + simpl. lia.
Qed.

Lemma collect_files_count (files : list (Path * file_content)) :
  forall divisions errors divisions' errors',
    collect_files fromisoformat files (divisions, errors) = Ret (divisions', errors') ->
    exists emitted,
      errors' = errors ++ emitted /\
      Forall (fun e => is_loader_error e = true) emitted /\
      List.length (filter is_yaml_error emitted)
      = List.length (filter is_bad_yaml files) /\
      List.length divisions' + List.length (filter is_block_error emitted)
      = List.length divisions + List.length (all_blocks files).
Proof.
  induction files as [|[p c] fs IH]; intros divisions errors divisions' errors' H.
  - simpl in H. injection H as <- <-. exists []. rewrite app_nil_r. simpl.
    repeat split; try constructor; try lia.
  - cbn [collect_files] in H. rewrite collect_file_blocks in H.
    unfold all_blocks, is_bad_yaml. cbn [flat_map filter fst snd] in *.
    fold (all_blocks fs). fold is_bad_yaml.
    destruct c as [| | exc | e0 | v];
      [discriminate | discriminate | | discriminate |].
    + cbn [bind file_blocks app] in *.
      apply IH in H as (em & -> & Hk & Hy & Hcount).
      exists ([ErrYaml p exc] ++ em).
      rewrite <- app_assoc. repeat split.
      * constructor; [reflexivity | assumption].
      * simpl. now rewrite Hy.
      * simpl. exact Hcount.
    + destruct (file_blocks (Parsed v)) as [blocks|e]; [|discriminate].
      cbn [bind] in H.
      destruct (collect_blocks fromisoformat p blocks (divisions, errors))
        as [[ds1 es1]|e] eqn:E1; [|discriminate].
      apply collect_blocks_count in E1 as (em1 & -> & Hk1 & Hc1).
      cbn [bind] in H.
      apply IH in H as (em & -> & Hk & Hy & Hcount).
      exists (em1 ++ em).
      rewrite !filter_app, !length_app, app_assoc. repeat split.
      * apply Forall_app. split; [|assumption].
        eapply Forall_impl; [|exact Hk1]. cbv beta. tauto.
      * rewrite (filter_none is_yaml_error em1); [simpl; exact Hy|].
        rewrite Forall_forall in Hk1. intros e He. now apply Hk1 in He.
      * lia.
Qed.

End LoaderReturns.


Lemma filter_length_perm {A : Type} (f : A -> bool) (l l' : list A) :
  Permutation l l' -> List.length (filter f l) = List.length (filter f l').
Proof.
  induction 1; simpl.
  - reflexivity.
  - destruct (f x); simpl; congruence.
  - destruct (f x), (f y); reflexivity.
  - congruence.
Qed.

Lemma all_blocks_length_perm (l l' : list (Path * file_content)) :
  Permutation l l' -> List.length (all_blocks l) = List.length (all_blocks l').
Proof.
  intros H. apply Permutation_length. unfold all_blocks.
  now apply Permutation_flat_map.
Qed.

(** X7. No block is dropped silently. When the loader returns from an
    empty list, every block of every file is either in the model or
    answered by one duplicate-id or missing-id message: the Divisions and
    these messages number as many as the blocks. And the parse-failure
    messages number as many as the files that do not parse. *)
Theorem loader_accounts_for_blocks
        (fromisoformat : string -> date + string)
        (country_root : list (Path * file_content))
        (errors : list error) (divisions : divisions_t) (errors' : list error) :
  collect_divisions fromisoformat country_root errors = Ret (divisions, errors') ->
  exists emitted,
    errors' = errors ++ emitted /\
    List.length divisions + List.length (filter is_block_error emitted)
      = List.length (all_blocks country_root) /\
    List.length (filter is_yaml_error emitted)
      = List.length (filter is_bad_yaml country_root).
Proof.
  unfold collect_divisions. intros H.
  apply collect_files_count in H as (em & -> & _ & Hy & Hc).
  exists em. split; [reflexivity|].
  pose proof (sort_by_perm fst path_ltb country_root) as Hp.
  rewrite (all_blocks_length_perm _ _ Hp) in Hc.
  rewrite (filter_length_perm is_bad_yaml _ _ Hp) in Hy.
  simpl in Hc. split; assumption.
Qed.

Lemma loader_accounts_for_blocks_witness :
  let iso := fun _ : string => @inr date string "Invalid isoformat string" in
  let listing :=
    [(["norway"; "b.yaml"], BadYaml "mapping values are not allowed here");
     (["norway"; "a.yaml"],
      Parsed (YMap [(YStr "divisions",
        YList [YMap [(YStr "id", YStr "N")];
               YMap [(YStr "id", YStr "N")];
               YMap [(YStr "name", YStr "Oslo")]])]))] in
  exists divisions errors' emitted,
    collect_divisions iso listing [] = Ret (divisions, errors') /\
    errors' = [] ++ emitted /\
    List.length divisions + List.length (filter is_block_error emitted) = 3 /\
    List.length (filter is_yaml_error emitted) = 1.
Proof.
  intros iso listing.
  eexists; eexists.
  destruct (loader_accounts_for_blocks iso listing [] _ _ eq_refl)
    as (emitted & He & Hc & Hy).
  exists emitted. split; [reflexivity|]. split; [exact He|]. split; assumption.
Defined.

(** X8. The loader records messages of its own kinds only: parse failure,
    missing identifier, duplicate identifier, bad date, bad parent. It
    never records a message about a relation list, a parent link, a date
    range or the lineage. *)
Theorem loader_records_own_kinds
        (fromisoformat : string -> date + string)
        (country_root : list (Path * file_content))
        (errors : list error) (divisions : divisions_t) (errors' : list error) :
  collect_divisions fromisoformat country_root errors = Ret (divisions, errors') ->
  exists emitted,
    errors' = errors ++ emitted /\
    forall e, In e emitted ->
      is_loader_error e = true /\ is_parent_link_error e = false /\
      is_date_error e = false /\ is_lineage_error e = false.
Proof.
  unfold collect_divisions. intros H.
  apply collect_files_count in H as (em & -> & Hk & _).
  exists em. split; [reflexivity|].
  rewrite Forall_forall in Hk. intros e He. apply Hk in He.
  destruct e; try discriminate; repeat split.
Qed.

Lemma loader_records_own_kinds_witness :
  let iso := fun _ : string => @inr date string "Invalid isoformat string" in
  let listing :=
    [(["norway"; "a.yaml"],
      Parsed (YMap [(YStr "divisions",
        YList [YMap [(YStr "id", YStr "N"); (YStr "from", YStr "1838");
                     (YStr "was", YInt 3)]])]))] in
  exists divisions errors' emitted,
    collect_divisions iso listing [] = Ret (divisions, errors') /\
    errors' = [] ++ emitted /\
    forall e, In e emitted ->
      is_loader_error e = true /\ is_parent_link_error e = false /\
      is_date_error e = false /\ is_lineage_error e = false.
Proof.
  intros iso listing.
  eexists; eexists.
  destruct (loader_records_own_kinds iso listing [] _ _ eq_refl)
    as (emitted & He & Hk).
  exists emitted. split; [reflexivity|]. split; assumption.
Defined.

(** ** The loaded Divisions *)

Section LoadedDivisions.
Variable fromisoformat : string -> date + string.

(** A Division of the model is the normalization of the record it keeps. *)
Let normalized (kv : string * Division.t) : Prop :=
  snd kv = division_of fromisoformat (Division.file (snd kv)) (fst kv)
                       (Division.raw (snd kv)) /\
  dict_get (Division.raw (snd kv)) "id" = YStr (fst kv).

Lemma block_effect_normalized (yaml_path : Path) (d : ydict) (divisions : divisions_t) :
  Forall normalized divisions ->
  Forall normalized (fst (block_effect fromisoformat yaml_path d divisions)).
Proof.
  intros Hall. unfold block_effect.
  destruct (dict_get d "id") eqn:Eid; try assumption.
  destruct (divisions_get divisions s) eqn:E; [assumption|].
  cbn [fst]. rewrite divisions_set_new by assumption.
  apply Forall_app. split; [assumption|].
  constructor; [|constructor]. split; [reflexivity | exact Eid].
Qed.

Lemma collect_blocks_normalized (yaml_path : Path) (blocks : list yaml) :
  forall st st',
    collect_blocks fromisoformat yaml_path blocks st = Ret st' ->
    Forall normalized (fst st) -> Forall normalized (fst st').
Proof.
  induction blocks as [|b bs IH]; intros [ds es] st' H Hok.
  - simpl in H. now injection H as <-.
  - cbn [collect_blocks] in H.
    destruct (is_mapping b) eqn:Eb;
      [|rewrite collect_block_other in H by assumption; discriminate].
    destruct b; try discriminate.
    rewrite collect_block_mapping in H. cbn [bind] in H.
    apply IH in H; [assumption|]. now apply block_effect_normalized.
Qed.

Lemma collect_files_normalized (files : list (Path * file_content)) :
  forall st st',
    collect_files fromisoformat files st = Ret st' ->
    Forall normalized (fst st) -> Forall normalized (fst st').
Proof.
  induction files as [|[p c] fs IH]; intros st st' H Hok.
  - simpl in H. now injection H as <-.
  - cbn [collect_files] in H. rewrite collect_file_blocks in H.
    cbn [fst snd] in H. destruct c as [| | exc | e0 | v];
      [discriminate | discriminate | | discriminate |].
    + cbn [bind] in H. apply IH in H; assumption.
    + destruct (file_blocks (Parsed v)) as [blocks|e]; [|discriminate].
      cbn [bind] in H.
      destruct (collect_blocks fromisoformat p blocks st) as [st1|e] eqn:E1;
        [|discriminate].
      cbn [bind] in H. apply IH in H; [assumption|].
      eapply collect_blocks_normalized; eassumption.
Qed.

(** X9. In every model the loader returns, each identifier is held once,
    and the Division filed under it is the normalization of the record it
    keeps in [raw]: its identifier is the record's id and its key, its
    base identifier is cut from that identifier, and its parent and dates
    are what the record's fields normalize to. *)
Theorem loaded_model_is_normalized
        (country_root : list (Path * file_content))
        (errors : list error) (divisions : divisions_t) (errors' : list error) :
  collect_divisions fromisoformat country_root errors = Ret (divisions, errors') ->
  model_ok divisions /\
  forall key div, In (key, div) divisions ->
    dict_get (Division.raw div) "id" = YStr key /\
    div = division_of fromisoformat (Division.file div) key (Division.raw div) /\
    Division.id div = key /\
    Division.base_id div = rsplit_colon_head key.
Proof.
  intros H. split.
  - exact (collect_divisions_model_ok fromisoformat _ _ _ H).
  - unfold collect_divisions in H.
    apply collect_files_normalized in H; [|constructor].
    cbn [fst] in H. rewrite Forall_forall in H.
    intros key div Hin. destruct (H _ Hin) as [Hdiv Hid]. cbn [fst snd] in *.
    repeat split; try assumption; rewrite Hdiv; reflexivity.
Qed.

End LoadedDivisions.

Lemma loaded_model_is_normalized_witness :
  let iso := fun _ : string => @inr date string "Invalid isoformat string" in
  let record := [(YStr "id", YStr "NO:0301:2"); (YStr "parent", YBool false)] in
  let file := ["norway"; "a.yaml"] in
  let listing := [(file, Parsed (YMap [(YStr "divisions", YList [YMap record])]))] in
  exists divisions errors',
    collect_divisions iso listing [] = Ret (divisions, errors') /\
    model_ok divisions /\
    forall key div, In (key, div) divisions ->
      dict_get (Division.raw div) "id" = YStr key /\
      div = division_of iso (Division.file div) key (Division.raw div) /\
      Division.id div = key /\
      Division.base_id div = rsplit_colon_head key.
Proof.
  intros iso record file listing.
  eexists; eexists. split; [reflexivity|].
  apply (loaded_model_is_normalized iso listing [] _ _ eq_refl).
Defined.

(** ** Parent links: a clean pass *)

Lemma parent_link_check_resolves (ids : list string) (div : Division.t) :
  parent_link_check ids div [] = [] <-> parent_resolves ids div = true.
Proof.
  unfold parent_link_check, parent_resolves.
  destruct (Division.parent div) as [p|]; [|split; discriminate].
  destruct (p =? "NO"), (str_mem p ids); simpl; split; try reflexivity; discriminate.
Qed.

Lemma flat_map_nil_forallb {A E : Type} (g : A -> list E) (ok : A -> bool) (l : list A) :
  (forall a, g a = [] <-> ok a = true) ->
  flat_map g l = [] <-> forallb ok l = true.
Proof.
  intros Hg. induction l as [|a l IH]; simpl; [tauto|].
  rewrite andb_true_iff, <- IH, <- Hg. split.
  - intros H. now apply app_eq_nil in H.
  - intros [-> ->]. reflexivity.
Qed.

(** X10. The parent-link pass leaves the list as it was exactly when every
    Division of the model has a parent that is "NO" or an identifier of
    the model; else the list grows. *)
Theorem validate_parent_links_clean_iff (divisions : divisions_t) (errors : list error) :
  validate_parent_links divisions errors = errors
  <-> forallb (parent_resolves (divisions_keys divisions))
              (divisions_values divisions) = true.
Proof.
  rewrite validate_parent_links_emit.
  rewrite <- (flat_map_nil_forallb
                (fun div => parent_link_check (divisions_keys divisions) div []));
    [|intros; apply parent_link_check_resolves].
  split.
  - intros H. rewrite <- (app_nil_r errors) in H at 2. now apply app_inv_head in H.
  - intros ->. apply app_nil_r.
Qed.

(** ** The date pass: ranges and groups *)

Lemma group_and_check_inverted (l : list Division.t) :
  forall (groups : groups_t) (errors : list error),
    snd (fold_left (fun st div => group_and_check div st) l (groups, errors)) =
    errors ++ flat_map inverted_range l.
Proof.
  induction l as [|div l IH]; intros groups errors; cbn [fold_left flat_map].
  - simpl. now rewrite app_nil_r.
  - unfold group_and_check at 2, inverted_range at 1.
    destruct (Division.from_date div) as [f|], (Division.to_date div) as [t|];
      try destruct (date_gtb f t); rewrite IH; rewrite <- ?app_assoc; reflexivity.
Qed.

Lemma validate_dates_exact (divisions : divisions_t) (errors : list error) :
  validate_dates divisions errors =
  errors ++ flat_map inverted_range (divisions_values divisions)
         ++ flat_map (check_group []) (date_groups divisions).
Proof.
  assert (He : snd (group_divisions divisions errors)
               = errors ++ flat_map inverted_range (divisions_values divisions))
    by apply group_and_check_inverted.
  assert (Hg : fst (group_divisions divisions errors) = date_groups divisions)
    by apply group_and_check_groups.
  unfold validate_dates.
  destruct (group_divisions divisions errors) as [groups errors1].
  cbn [fst snd] in Hg, He. subst groups errors1.
  rewrite (fold_left_emit (fun g errs => check_group errs g) (check_group [])).
  - now rewrite app_assoc.
  - intros; apply check_group_emit.
Qed.

(** Where the messages of a walk come from: the first Division against
    the value the walk starts with, or a Division against the end of the
    one right before it. *)
Lemma walk_group_errors (base : string) (l : list Division.t) :
  forall last_to e,
    In e (snd (walk_group base l (last_to, []))) ->
    (exists div l2 lt f,
        l = div :: l2 /\ last_to = Some lt /\
        Division.from_date div = Some f /\ date_leb f lt = true /\
        e = ErrOverlap base (Division.file div) (Division.id div) f lt) \/
    (exists l1 prev div l2 f,
        l = l1 ++ prev :: div :: l2 /\
        Division.from_date div = Some f /\
        date_leb f (closing_date prev) = true /\
        e = ErrOverlap base (Division.file div) (Division.id div) f
                       (closing_date prev)).
Proof.
  induction l as [|d l IH]; intros last_to e He.
  - simpl in He. tauto.
  - change (d :: l) with ([d] ++ l) in He. rewrite walk_group_app in He.
    change (walk_group base [d] (last_to, []))
      with (overlap_step base d (last_to, [])) in He.
    rewrite overlap_step_emit, walk_group_emit in He. cbn [app] in He.
    apply in_app_or in He as [He|He].
    + left. unfold overlap_step in He. cbn [snd] in He.
      destruct last_to as [lt|]; [|simpl in He; tauto].
      destruct (Division.from_date d) as [f|] eqn:Ef; [|simpl in He; tauto].
      destruct (date_leb f lt) eqn:El; [|simpl in He; tauto].
      destruct He as [<-|[]]. exists d, l, lt, f. repeat split; assumption.
    + right. apply IH in He as [(div & l2 & lt & f & -> & [= <-] & Hf & Hl & ->)
                               |(l1 & prev & div & l2 & f & -> & Hf & Hl & ->)].
      * exists [], d, div, l2, f. repeat split; assumption.
      * exists (d :: l1), prev, div, l2, f. repeat split; assumption.
Qed.

Lemma check_group_only_overlaps (g : string * list Division.t) (e : error) :
  In e (check_group [] g) -> exists file i f lt, e = ErrOverlap (fst g) file i f lt.
Proof.
  destruct g as [base subset]. unfold check_group. intros He.
  apply walk_group_errors in He
    as [(div & l2 & lt & f & _ & [=] & _)|(l1 & prev & div & l2 & f & _ & _ & _ & ->)].
  now eexists _, _, _, _.
Qed.

(** X11. The date pass appends first the inverted ranges, one message for
    each Division whose from date is after its to date, in the order of the
    model, and only then the overlaps, group by group; what was recorded
    before is kept in front. A Division with an inverted range gets exactly
    one such message, whatever overlaps there are. *)
Theorem validate_dates_ranges_then_overlaps
        (divisions : divisions_t) (errors : list error) :
  validate_dates divisions errors =
    errors ++ flat_map inverted_range (divisions_values divisions)
           ++ flat_map (check_group []) (date_groups divisions) /\
  (model_ok divisions ->
   forall div, In div (divisions_values divisions) ->
     filter (inverted_error_of (Division.id div)) (validate_dates divisions [])
     = inverted_range div).
Proof.
  split; [apply validate_dates_exact|].
  intros [Hnd Hkeys] div Hin. rewrite validate_dates_exact. cbn [app].
  rewrite filter_app.
  assert (Hown : filter (inverted_error_of (Division.id div))
                        (flat_map inverted_range (divisions_values divisions))
                 = inverted_range div).
  { apply (filter_flat_map_own inverted_error_id inverted_range); auto.
    - intros d e. unfold inverted_range.
      destruct (Division.from_date d) as [f|], (Division.to_date d) as [t|];
        try destruct (date_gtb f t); simpl; try tauto.
      intros [<-|[]]. reflexivity.
    - now rewrite <- Hkeys. }
  rewrite Hown, filter_none; [apply app_nil_r|].
  intros e He. apply in_flat_map in He as (g & _ & He).
  apply check_group_only_overlaps in He as (file & i & f & lt & ->). reflexivity.
Qed.

Lemma validate_dates_ranges_then_overlaps_witness :
  let div := Division.make "N" ["norway"; "n.yaml"] (Some "NO")
               (Some (mkDate 2010 1 1)) (Some (mkDate 2009 1 1)) "N" [] in
  filter (inverted_error_of "N") (validate_dates [("N", div)] [])
  = [ErrInvertedRange ["norway"; "n.yaml"] "N" (mkDate 2010 1 1) (mkDate 2009 1 1)].
Proof.
  intros div.
  apply (proj2 (validate_dates_ranges_then_overlaps [("N", div)] [])
           (conj (NoDup_cons "N" (@in_nil string "N") (NoDup_nil string)) eq_refl)
           div (or_introl eq_refl)).
Defined.

(** ** The groups of the date pass *)

Lemma groups_append_keys (g : groups_t) (b : string) (d : Division.t) (k : string) :
  In k (map fst (groups_append g b d)) <-> k = b \/ In k (map fst g).
Proof.
  induction g as [|[k0 l0] g IH]; simpl.
  - intuition.
  - destruct (k0 =? b) eqn:E; simpl.
    + apply String.eqb_eq in E. subst k0. intuition.
    + rewrite IH. intuition.
Qed.

Lemma groups_append_nodup (g : groups_t) (b : string) (d : Division.t) :
  NoDup (map fst g) -> NoDup (map fst (groups_append g b d)).
Proof.
  induction g as [|[k0 l0] g IH]; simpl; intros Hnd.
  - repeat constructor. simpl. tauto.
  - inversion Hnd as [|? ? Hnotin Hnd']; subst.
    destruct (k0 =? b) eqn:E; simpl.
    + now constructor.
    + constructor; [|auto]. rewrite groups_append_keys.
      apply String.eqb_neq in E. intuition.
Qed.

Lemma groups_append_in (g : groups_t) (b : string) (d : Division.t)
      (b' : string) (s' : list Division.t) :
  NoDup (map fst g) ->
  In (b', s') (groups_append g b d) ->
  (b' <> b /\ In (b', s') g) \/
  (b' = b /\ ((exists s, In (b, s) g /\ s' = s ++ [d]) \/
              (~ In b (map fst g) /\ s' = [d]))).
Proof.
  induction g as [|[k0 l0] g IH]; simpl; intros Hnd Hin.
  - destruct Hin as [[= <- <-]|[]]. right. split; [reflexivity|]. right. tauto.
  - inversion Hnd as [|? ? Hnotin Hnd']; subst.
    destruct (k0 =? b) eqn:E.
    + apply String.eqb_eq in E. subst k0.
      destruct Hin as [[= <- <-]|Hin].
      * right. split; [reflexivity|]. left. exists l0. auto.
      * left. split; [|now right]. intros ->. apply Hnotin.
        change b with (fst (b, s')). now apply in_map.
    + apply String.eqb_neq in E.
      destruct Hin as [[= <- <-]|Hin].
      * left. split; [assumption | now left].
      * apply (IH Hnd') in Hin as [[Hne Hin]|[-> [(s & Hs & ->)|[Hno ->]]]].
        -- left. split; [assumption | now right].
        -- right. split; [reflexivity|]. left. exists s. auto.
        -- right. split; [reflexivity|]. right. split; [|reflexivity]. intuition.
Qed.

Lemma same_base_snoc (b : string) (l : list Division.t) (d : Division.t) :
  same_base b (l ++ [d]) =
  same_base b l ++ (if Division.base_id d =? b then [d] else []).
Proof.
  unfold same_base. rewrite filter_app. simpl.
  destruct (Division.base_id d =? b); reflexivity.
Qed.

Lemma groups_partition_step (l : list Division.t) (g : groups_t) (d : Division.t) :
  groups_partition l g ->
  groups_partition (l ++ [d]) (groups_append g (Division.base_id d) d).
Proof.
  intros (Hnd & Hgroups & Hkeys). repeat split.
  - now apply groups_append_nodup.
  - apply (groups_append_in _ _ _ _ _ Hnd) in H
      as [[Hne Hin]|[-> [(s0 & Hs & ->)|[Hno ->]]]]; rewrite same_base_snoc.
    + apply Hgroups in Hin as [-> _].
      assert (E : (Division.base_id d =? b) = false)
        by (apply String.eqb_neq; congruence).
      rewrite E. now rewrite app_nil_r.
    + apply Hgroups in Hs as [-> _]. now rewrite String.eqb_refl.
    + rewrite String.eqb_refl.
      assert (E : same_base (Division.base_id d) l = []).
      { apply filter_none. intros d' Hd'. apply String.eqb_neq. intros Heq.
        apply Hno. rewrite <- Heq. now apply Hkeys. }
      now rewrite E.
  - apply (groups_append_in _ _ _ _ _ Hnd) in H
      as [[Hne Hin]|[-> [(s0 & Hs & ->)|[Hno ->]]]].
    + now apply Hgroups in Hin.
    + intros Heq. now apply app_eq_nil in Heq as [_ [=]].
    + discriminate.
  - intros d' Hd'. rewrite groups_append_keys.
    apply in_app_or in Hd' as [Hd'|[<-|[]]]; [right; now apply Hkeys | now left].
Qed.

Lemma group_and_check_partition (l' : list Division.t) :
  forall l g errors,
    groups_partition l g ->
    groups_partition (l ++ l')
      (fst (fold_left (fun st div => group_and_check div st) l' (g, errors))).
Proof.
  induction l' as [|d l' IH]; intros l g errors H; cbn [fold_left].
  - now rewrite app_nil_r.
  - change (d :: l') with ([d] ++ l'). rewrite app_assoc.
    apply (groups_partition_step _ _ d) in H.
    unfold group_and_check at 2.
    destruct (Division.from_date d) as [f|], (Division.to_date d) as [t|];
      try destruct (date_gtb f t); now apply IH.
Qed.

Lemma date_groups_partitioned (divisions : divisions_t) :
  groups_partition (divisions_values divisions) (date_groups divisions).
Proof.
  apply (group_and_check_partition (divisions_values divisions) [] [] []).
  split; [constructor|]. split; simpl; tauto.
Qed.

(** X12. The date pass groups the model by base identifier, and by nothing
    else: the groups have distinct base identifiers, each group holds
    exactly the Divisions of the model with its base identifier, in the
    order of the model, and is not empty; and every Division of the model
    is in the group of its base identifier. *)
Theorem date_groups_partition (divisions : divisions_t) :
  NoDup (map fst (date_groups divisions)) /\
  (forall base subset, In (base, subset) (date_groups divisions) ->
     subset = same_base base (divisions_values divisions) /\ subset <> []) /\
  (forall div, In div (divisions_values divisions) ->
     In (Division.base_id div,
         same_base (Division.base_id div) (divisions_values divisions))
        (date_groups divisions)).
Proof.
  destruct (date_groups_partitioned divisions) as (Hnd & Hgroups & Hkeys).
  repeat split; try assumption; try (now apply Hgroups in H).
  intros div Hin. apply Hkeys in Hin.
  apply in_map_iff in Hin as ([b s] & Hb & Hin). simpl in Hb. subst b.
  destruct (Hgroups _ _ Hin) as [Hs _]. now rewrite <- Hs.
Qed.

Lemma date_groups_partition_witness :
  let a := example_variant "1" (mkDate 2000 1 1) None in
  let n := Division.make "N" ["norway"; "n.yaml"] (Some "NO") None None "N" [] in
  let b := example_variant "2" (mkDate 2001 1 1) None in
  In ("R", [a; b]) (date_groups [("R:1", a); ("N", n); ("R:2", b)]).
Proof.
  intros a n b.
  apply (proj2 (proj2 (date_groups_partition [("R:1", a); ("N", n); ("R:2", b)])) a).
  simpl; auto.
Defined.

(** X13. Every overlap message is earned. It names a Division of the
    model that has a from date, in the group of that Division's base
    identifier; the date it collided with is the end (the latest date, if
    there is none) of the Division right before it in the sorted group,
    which has the same base identifier; and its from date is not after
    that end. Divisions of different base identifiers never collide. *)
Theorem overlap_messages_are_earned
        (divisions : divisions_t) (base : string) (file : Path) (i : string)
        (f lt : date) :
  In (ErrOverlap base file i f lt) (validate_dates divisions []) ->
  exists subset l1 prev div l2,
    In (base, subset) (date_groups divisions) /\
    sort_by sort_key key_ltb subset = l1 ++ prev :: div :: l2 /\
    file = Division.file div /\ i = Division.id div /\
    Division.from_date div = Some f /\
    lt = closing_date prev /\ date_leb f lt = true /\
    In div (divisions_values divisions) /\ In prev (divisions_values divisions) /\
    Division.base_id div = base /\ Division.base_id prev = base.
Proof.
  rewrite validate_dates_exact. cbn [app]. intros Hin.
  apply in_app_or in Hin as [Hin|Hin].
  { apply in_flat_map in Hin as (d & _ & Hin). unfold inverted_range in Hin.
    destruct (Division.from_date d), (Division.to_date d);
      try destruct (date_gtb _ _); simpl in Hin; try tauto.
    destruct Hin as [|[]]; discriminate. }
  apply in_flat_map in Hin as ([b subset] & Hg & Hin).
  unfold check_group in Hin.
  apply walk_group_errors in Hin
    as [(div & l2 & lt' & f' & _ & [=] & _)
       |(l1 & prev & div & l2 & f' & Hsort & Hf & Hl & [= <- -> -> -> ->])].
  destruct (date_groups_partitioned divisions) as (_ & Hgroups & _).
  destruct (Hgroups _ _ Hg) as [Hs _].
  assert (Hmem : forall d, In d (l1 ++ prev :: div :: l2) ->
                   In d (divisions_values divisions) /\ Division.base_id d = base).
  { intros d Hd. rewrite <- Hsort in Hd.
    apply (Permutation_in _ (sort_by_perm sort_key key_ltb subset)) in Hd.
    rewrite Hs in Hd. apply filter_In in Hd as [Hd Hb].
    apply String.eqb_eq in Hb. tauto. }
  destruct (Hmem div) as [Hdiv Hbdiv]; [apply in_or_app; right; right; now left|].
  destruct (Hmem prev) as [Hprev Hbprev]; [apply in_or_app; right; now left|].
  exists subset, l1, prev, div, l2. repeat split; assumption.
Qed.

Lemma overlap_messages_are_earned_witness :
  let a := example_variant "1" (mkDate 2000 1 1) None in
  let b := example_variant "2" (mkDate 2001 1 1) (Some (mkDate 2002 12 31)) in
  let divisions := [("R:2", b); ("R:1", a)] in
  exists subset l1 prev div l2,
    In ("R", subset) (date_groups divisions) /\
    sort_by sort_key key_ltb subset = l1 ++ prev :: div :: l2 /\
    ["norway"; "r.yaml"] = Division.file div /\ "R:2" = Division.id div /\
    Division.from_date div = Some (mkDate 2001 1 1) /\
    date_max = closing_date prev /\ date_leb (mkDate 2001 1 1) date_max = true /\
    In div (divisions_values divisions) /\ In prev (divisions_values divisions) /\
    Division.base_id div = "R" /\ Division.base_id prev = "R".
Proof.
  intros a b divisions.
  apply (overlap_messages_are_earned divisions "R" ["norway"; "r.yaml"] "R:2"
           (mkDate 2001 1 1) date_max).
  simpl; auto.
Defined.

(** ** The lineage pass: every message is earned *)

Lemma normalize_relation_context (value : yaml) (ctx : context) (e : error) :
  In e (snd (normalize_relation value ctx [])) ->
  relation_error_context e = Some ctx.
Proof.
  set (Q := fun e => relation_error_context e = Some ctx).
  assert (Hstep : forall items ids errs,
             Forall Q errs ->
             Forall Q (snd (fold_left (fun st item => relation_item ctx item st)
                                      items (ids, errs)))).
  { induction items as [|item items IH]; intros ids errs HQ; cbn [fold_left];
      [exact HQ|].
    destruct (relation_item ctx item (ids, errs)) as [ids' errs'] eqn:E.
    apply IH. unfold relation_item in E.
    assert (Hadd : forall e', Q e' -> Forall Q (errs ++ [e'])).
    { intros e' He'. apply Forall_app. split; [assumption|]. now constructor. }
    destruct item as [| | | | | | | |m| | |];
      try (injection E as <- <-; first [assumption | apply Hadd; reflexivity]).
    destruct (dict_find "id" m) as [[]|];
      injection E as <- <-; first [assumption | apply Hadd; reflexivity]. }
  intros He.
  assert (HQ : Forall Q (snd (normalize_relation value ctx []))).
  { destruct value; simpl; try (repeat constructor).
    apply Hstep. constructor. }
  rewrite Forall_forall in HQ. now apply HQ.
Qed.

Lemma divisions_get_in (divisions : divisions_t) (k : string) (v : Division.t) :
  divisions_get divisions k = Some v -> In v (divisions_values divisions).
Proof.
  induction divisions as [|[k0 v0] ds IH]; simpl; [discriminate|].
  destruct (k0 =? k); [intros [= ->]; now left | intros H; right; auto].
Qed.

Lemma direction_swap (field counterpart : string) :
  lineage_direction field counterpart -> lineage_direction counterpart field.
Proof. unfold lineage_direction. tauto. Qed.

Lemma relation_errors_earned (divisions : divisions_t) (div : Division.t)
      (field counterpart : string) (e : error) :
  In div (divisions_values divisions) ->
  lineage_direction field counterpart ->
  In e (relation_errors div field) ->
  lineage_message_earned divisions e.
Proof.
  intros Hin Hdir He.
  pose proof (normalize_relation_context _ _ _ He) as Hctx.
  destruct e; try discriminate; injection Hctx as ->;
    exists div, field, counterpart; repeat split; assumption.
Qed.

Lemma check_relation_earned (divisions : divisions_t) (source : Division.t)
      (field counterpart : string) (e : error) :
  In source (divisions_values divisions) ->
  lineage_direction field counterpart ->
  In e (check_relation divisions source field counterpart []) ->
  lineage_message_earned divisions e.
Proof.
  intros Hin Hdir He. rewrite check_relation_emit in He. cbn [app] in He.
  apply in_app_or in He as [He|He];
    [now apply (relation_errors_earned divisions source field counterpart)|].
  apply in_flat_map in He as (t & Ht & He). rewrite check_target_nil in He.
  destruct (divisions_get divisions t) as [target|] eqn:Eg.
  - apply in_app_or in He as [He|He].
    + apply (relation_errors_earned divisions target counterpart field);
        [now apply divisions_get_in in Eg | now apply direction_swap | assumption].
    + destruct (str_mem (Division.id source) (relation_ids target counterpart)) eqn:Em;
        [destruct He|].
      destruct He as [<-|[]]. exists source, target. repeat split; assumption.
  - destruct He as [<-|[]]. exists source, counterpart. repeat split; assumption.
Qed.

(** X14. Every message of the lineage pass is earned. An unknown-id
    message names a Division of the model and an identifier of its was or
    became list that the model does not hold. A mismatch names a Division
    and a listed identifier that the model holds, whose counterpart list
    lacks the Division's identifier. A normalization message belongs to
    the was or became list of a Division of the model. The pass records no
    other kind of message. *)
Theorem lineage_messages_are_earned (divisions : divisions_t) (e : error) :
  In e (validate_lineage divisions []) -> lineage_message_earned divisions e.
Proof.
  rewrite validate_lineage_emit. cbn [app]. intros He.
  apply in_flat_map in He as (source & Hin & He).
  apply in_app_or in He as [He|He].
  - apply (check_relation_earned divisions source "was" "became"); auto.
    left; split; reflexivity.
  - apply (check_relation_earned divisions source "became" "was"); auto.
    right; split; reflexivity.
Qed.

Lemma lineage_messages_are_earned_witness :
  let file := ["norway"; "a.yaml"] in
  let divisions := [("A", example_A file); ("B", example_B file [])] in
  lineage_message_earned divisions (ErrLineageMismatch file "A" "became" "B" "was").
Proof.
  intros file divisions.
  apply (lineage_messages_are_earned divisions).
  simpl; auto.
Defined.

(** ** The passes together *)

Lemma validate_lineage_only_lineage (divisions : divisions_t) :
  Forall (fun e => is_lineage_error e = true) (validate_lineage divisions []).
Proof.
  apply Forall_forall. intros e He.
  assert (Hearned : lineage_message_earned divisions e).
  { rewrite validate_lineage_emit in He. cbn [app] in He.
    apply in_flat_map in He as (source & Hin & He).
    apply in_app_or in He as [He|He].
    - apply (check_relation_earned divisions source "was" "became"); auto.
      left; split; reflexivity.
    - apply (check_relation_earned divisions source "became" "was"); auto.
      right; split; reflexivity. }
  destruct e; simpl in Hearned; try contradiction; reflexivity.
Qed.

Lemma validate_all_is_concatenation_aux (divisions : divisions_t) (errors : list error) :
  validate_all divisions errors =
  errors ++ validate_parent_links divisions []
         ++ validate_dates divisions []
         ++ validate_lineage divisions [].
Proof.
  unfold validate_all.
  rewrite validate_lineage_emit, validate_dates_exact, validate_parent_links_emit.
  rewrite (validate_lineage_emit divisions []), (validate_dates_exact divisions []),
    (validate_parent_links_emit divisions []).
  cbn [app]. now rewrite <- !app_assoc.
Qed.

(** X15. The three passes run one after the other, and none cuts another
    short or looks at what is already recorded: the messages after them
    are the messages before them, then what the parent-link pass, the date
    pass and the lineage pass each record on their own, in this order. *)
Theorem validate_all_is_concatenation (divisions : divisions_t) (errors : list error) :
  validate_all divisions errors =
  errors ++ validate_parent_links divisions []
         ++ validate_dates divisions []
         ++ validate_lineage divisions [].
Proof.
  apply validate_all_is_concatenation_aux.
Qed.

(** X16. Each pass records messages of its own kinds only: the parent-link
    pass missing and unresolved parents, the date pass inverted ranges and
    overlaps, the lineage pass messages about relation lists, unknown
    identifiers and mismatches. *)
Theorem passes_record_own_kinds (divisions : divisions_t) :
  Forall (fun e => is_parent_link_error e = true) (validate_parent_links divisions []) /\
  Forall (fun e => is_date_error e = true) (validate_dates divisions []) /\
  Forall (fun e => is_lineage_error e = true) (validate_lineage divisions []).
Proof.
  split; [|split].
  - rewrite validate_parent_links_emit. cbn [app].
    apply Forall_forall. intros e He. apply in_flat_map in He as (d & _ & He).
    apply parent_link_check_about in He. destruct e; try discriminate; reflexivity.
  - rewrite validate_dates_exact. cbn [app].
    apply Forall_app. split; apply Forall_forall; intros e He;
      apply in_flat_map in He as (x & _ & He).
    + unfold inverted_range in He.
      destruct (Division.from_date x), (Division.to_date x);
        try destruct (date_gtb _ _); simpl in He; try tauto.
      destruct He as [<-|[]]. reflexivity.
    + apply check_group_only_overlaps in He as (file & i & f & lt & ->). reflexivity.
  - apply validate_lineage_only_lineage.
Qed.

(** ** The order of the sorted lists *)

Section SortOrder.
Context {A K : Type}.
Variable key : A -> K.
Variable ltb : K -> K -> bool.
Hypothesis ltb_asym : forall a b, ltb a b = true -> ltb b a = false.
Hypothesis ltb_negtrans :
  forall a b c, ltb b a = false -> ltb c b = false -> ltb c a = false.

Let not_after (a b : A) : Prop := ltb (key b) (key a) = false.

Lemma insert_sorted_ordered (x : A) (l : list A) :
  StronglySorted not_after l -> StronglySorted not_after (insert_sorted key ltb x l).
Proof.
  induction l as [|y l IH]; simpl; intros Hs.
  - repeat constructor.
  - inversion Hs as [|? ? Hs' Hall]; subst.
    rewrite Forall_forall in Hall.
    destruct (ltb (key y) (key x)) eqn:E.
    + constructor; [now apply IH|].
      apply Forall_forall. intros z Hz.
      apply (Permutation_in _ (insert_sorted_perm key ltb x l)) in Hz as [<-|Hz].
      * now apply ltb_asym.
      * now apply Hall.
    + constructor; [assumption|]. constructor; [exact E|].
      apply Forall_forall. intros z Hz.
      apply (ltb_negtrans _ (key y)); [exact E | now apply Hall].
Qed.

Lemma sort_by_ordered (l : list A) : StronglySorted not_after (sort_by key ltb l).
Proof.
  induction l as [|x l IH]; simpl; [constructor|]. now apply insert_sorted_ordered.
Qed.
End SortOrder.

Lemma date_ltb_iff (a b : date) :
  date_ltb a b = true <->
  (year a < year b \/
   (year a = year b /\ (month a < month b \/ (month a = month b /\ day a < day b))))%Z.
Proof.
  unfold date_ltb.
  rewrite !orb_true_iff, !andb_true_iff, !orb_true_iff, !andb_true_iff,
    !Z.ltb_lt, !Z.eqb_eq.
  reflexivity.
Qed.

Lemma date_eqb_iff (a b : date) :
  date_eqb a b = true <-> (year a = year b /\ month a = month b /\ day a = day b)%Z.
Proof.
  unfold date_eqb. rewrite !andb_true_iff, !Z.eqb_eq. tauto.
Qed.

Lemma key_ltb_iff (a b : date * date) :
  key_ltb a b = true <->
  date_ltb (fst a) (fst b) = true \/
  (date_eqb (fst a) (fst b) = true /\ date_ltb (snd a) (snd b) = true).
Proof.
  unfold key_ltb.
  destruct (date_eqb (fst a) (fst b)) eqn:E.
  - split; [tauto|]. intros [H|[_ H]]; [|exact H].
    apply date_ltb_iff in H. apply date_eqb_iff in E. lia.
  - split; [tauto|]. intros [H|[H _]]; [exact H | discriminate].
Qed.

Lemma key_ltb_asym (a b : date * date) : key_ltb a b = true -> key_ltb b a = false.
Proof.
  intros H. apply not_true_iff_false. intros H'.
  rewrite key_ltb_iff, !date_ltb_iff, date_eqb_iff in H, H'. lia.
Qed.

Lemma key_ltb_negtrans (a b c : date * date) :
  key_ltb b a = false -> key_ltb c b = false -> key_ltb c a = false.
Proof.
  intros H1 H2. apply not_true_iff_false. intros H3.
  apply not_true_iff_false in H1, H2.
  rewrite key_ltb_iff, !date_ltb_iff, date_eqb_iff in H1, H2, H3.
  destruct a as [[] []], b as [[] []], c as [[] []]; cbn [fst snd year month day] in *.
  lia.
Qed.

Lemma path_ltb_asym (p q : Path) : path_ltb p q = true -> path_ltb q p = false.
Proof.
  intros H. apply not_true_iff_false. intros H'.
  pose proof (path_ltb_trans _ _ _ H H') as Hc.
  rewrite path_ltb_irrefl in Hc. discriminate.
Qed.

Lemma path_ltb_negtrans (p q r : Path) :
  path_ltb q p = false -> path_ltb r q = false -> path_ltb r p = false.
Proof.
  intros H1 H2. apply not_true_iff_false. intros H3.
  destruct (list_eq_dec string_dec p q) as [->|Hne]; [congruence|].
  pose proof (path_ltb_total p q Hne H1) as Hpq.
  rewrite (path_ltb_trans _ _ _ H3 Hpq) in H2. discriminate.
Qed.

(** X17. The sorted lists are in order and hold what they were given. The
    files are read in an order in which no file comes before one of
    smaller path; a group is walked in an order in which no Division comes
    before one of smaller (from or earliest date, to or latest date); and
    each time the sorted list is a rearrangement of the original, nothing
    lost and nothing added. *)
Theorem sorted_lists_are_ordered
        (country_root : list (Path * file_content)) (subset : list Division.t) :
  Permutation (sort_by fst path_ltb country_root) country_root /\
  StronglySorted (fun f g => path_ltb (fst g) (fst f) = false)
                 (sort_by fst path_ltb country_root) /\
  Permutation (sort_by sort_key key_ltb subset) subset /\
  StronglySorted (fun a b => key_ltb (sort_key b) (sort_key a) = false)
                 (sort_by sort_key key_ltb subset).
Proof.
  repeat split.
  - apply sort_by_perm.
  - apply (sort_by_ordered fst path_ltb path_ltb_asym path_ltb_negtrans).
  - apply sort_by_perm.
  - apply (sort_by_ordered sort_key key_ltb key_ltb_asym key_ltb_negtrans).
Qed.

(** ** Clean passes *)

Lemma app_eq_self_nil {A : Type} (l x : list A) : l ++ x = l <-> x = [].
Proof.
  split.
  - intros H. rewrite <- (app_nil_r l) in H at 2. now apply app_inv_head in H.
  - intros ->. apply app_nil_r.
Qed.

Lemma walk_group_clean (base : string) (l : list Division.t) :
  forall last_to,
    snd (walk_group base l (last_to, [])) = [] <-> chain_ok last_to l = true.
Proof.
  induction l as [|d l IH]; intros last_to.
  - simpl. tauto.
  - change (d :: l) with ([d] ++ l). rewrite walk_group_app.
    change (walk_group base [d] (last_to, []))
      with (overlap_step base d (last_to, [])).
    rewrite overlap_step_emit, walk_group_emit. cbn [app chain_ok].
    rewrite andb_true_iff, <- IH. split.
    + intros H. apply app_eq_nil in H as [H1 H2]. split; [|assumption].
      unfold overlap_step in H1. unfold starts_after. cbn [snd] in H1.
      destruct last_to as [lt|]; [|reflexivity].
      destruct (Division.from_date d) as [f|]; [|reflexivity].
      destruct (date_leb f lt); [discriminate | reflexivity].
    + intros [H1 H2]. rewrite H2, app_nil_r.
      unfold overlap_step. unfold starts_after in H1. cbn [snd].
      destruct last_to as [lt|]; [|reflexivity].
      destruct (Division.from_date d) as [f|]; [|reflexivity].
      destruct (date_leb f lt); [discriminate | reflexivity].
Qed.

Lemma inverted_range_ok (div : Division.t) :
  inverted_range div = [] <-> range_ok div = true.
Proof.
  unfold inverted_range, range_ok.
  destruct (Division.from_date div), (Division.to_date div); try tauto.
  destruct (date_gtb _ _); simpl; split; try reflexivity; discriminate.
Qed.

(** X18. The date pass leaves the list as it was exactly when no Division
    of the model has its from date after its to date and, in every group
    taken in sorted order, each Division that has a from date starts after
    the end of the one before it (the latest date, if that one has no
    end). *)
Theorem validate_dates_clean_iff (divisions : divisions_t) (errors : list error) :
  validate_dates divisions errors = errors
  <-> forallb range_ok (divisions_values divisions) = true /\
      forallb (fun g => chain_ok None (sort_by sort_key key_ltb (snd g)))
              (date_groups divisions) = true.
Proof.
  rewrite validate_dates_exact, app_eq_self_nil.
  rewrite <- (flat_map_nil_forallb inverted_range range_ok)
    by apply inverted_range_ok.
  rewrite <- (flat_map_nil_forallb (check_group [])
                (fun g => chain_ok None (sort_by sort_key key_ltb (snd g)))).
  - split; [apply app_eq_nil | intros [-> ->]; reflexivity].
  - intros [base subset]. unfold check_group. apply walk_group_clean.
Qed.

Lemma check_target_clean (divisions : divisions_t) (source : Division.t)
      (field counterpart target_id : string) :
  check_target divisions source field counterpart target_id [] = [] <->
  match divisions_get divisions target_id with
  | None => false
  | Some target =>
      match relation_errors target counterpart with
      | [] => str_mem (Division.id source) (relation_ids target counterpart)
      | _ :: _ => false
      end
  end = true.
Proof.
  rewrite check_target_nil.
  destruct (divisions_get divisions target_id) as [target|]; [|split; discriminate].
  destruct (relation_errors target counterpart); [|split; discriminate].
  destruct (str_mem _ _); simpl; split; try reflexivity; discriminate.
Qed.

Lemma check_relation_clean (divisions : divisions_t) (source : Division.t)
      (field counterpart : string) :
  check_relation divisions source field counterpart [] = [] <->
  relation_ok divisions source field counterpart = true.
Proof.
  rewrite check_relation_emit. cbn [app]. unfold relation_ok.
  destruct (relation_errors source field); [|split; discriminate].
  cbn [app]. apply flat_map_nil_forallb. intros t. apply check_target_clean.
Qed.

(** X19. The lineage pass leaves the list as it was exactly when, for
    every Division of the model, its was list and its became list are
    well formed and every identifier they list is held by the model and
    reciprocated: the Division named under was lists this one under
    became, and the other way round, in a well-formed list. *)
Theorem validate_lineage_clean_iff (divisions : divisions_t) (errors : list error) :
  validate_lineage divisions errors = errors
  <-> forallb (fun div => relation_ok divisions div "was" "became"
                          && relation_ok divisions div "became" "was")
              (divisions_values divisions) = true.
Proof.
  rewrite validate_lineage_emit, app_eq_self_nil.
  apply flat_map_nil_forallb. intros div.
  rewrite andb_true_iff, <- !check_relation_clean. split.
  - apply app_eq_nil.
  - intros [-> ->]. reflexivity.
Qed.

(** ** Success *)

(** X20. When the directory exists and the loader returns, the program
    reports success, exit status 0 and the count of Divisions, exactly
    when the loader recorded nothing and each of the three passes, run on
    its own, records nothing; and exactly in every other case it exits
    with 1, after the header and one print for each message of the loader
    and of the three passes, in this order. *)
Theorem main_succeeds_iff
        (fromisoformat : string -> date + string)
        (repr_str repr_bytes : string -> string) (set_order : list yaml -> list nat)
        (country_path : Path)
        (country_root : list (Path * file_content))
        (divisions : divisions_t) (errors0 : list error) :
  collect_divisions fromisoformat country_root [] = Ret (divisions, errors0) ->
  let result :=
    main fromisoformat repr_str repr_bytes set_order country_path (Some country_root) in
  let clean :=
    errors0 = [] /\ validate_parent_links divisions [] = [] /\
    validate_dates divisions [] = [] /\ validate_lineage divisions [] = [] in
  let messages :=
    errors0 ++ validate_parent_links divisions []
            ++ validate_dates divisions [] ++ validate_lineage divisions [] in
  (result = Ret (mkRun 0 [ok_print (List.length divisions) country_path] [])
   <-> clean) /\
  (result = Ret (mkRun 1 []
                   (header_print
                    :: map (issue_print repr_str repr_bytes set_order) messages))
   <-> ~ clean).
Proof.
  intros Hload. cbv zeta. unfold main. rewrite Hload. cbn [bind].
  rewrite validate_all_is_concatenation_aux.
  destruct errors0 as [|e0 errors0]; cbn [app].
  - destruct (validate_parent_links divisions []) as [|e1 l1]; cbn [app].
    + destruct (validate_dates divisions []) as [|e2 l2]; cbn [app].
      * destruct (validate_lineage divisions []) as [|e3 l3].
        -- split; [tauto|]. split; [discriminate | tauto].
        -- split; (split; [try discriminate | ]).
           ++ intros (_ & _ & _ & [=]).
           ++ intros _ (_ & _ & _ & [=]).
           ++ reflexivity.
      * split; (split; [try discriminate | ]).
        -- intros (_ & _ & [=] & _).
        -- intros _ (_ & _ & [=] & _).
        -- reflexivity.
    + split; (split; [try discriminate | ]).
      * intros (_ & [=] & _).
      * intros _ (_ & [=] & _).
      * reflexivity.
  - split; (split; [try discriminate | ]).
    + intros ([=] & _).
    + intros _ ([=] & _).
    + reflexivity.
Qed.

Lemma main_succeeds_iff_witness :
  let iso := fun _ : string => @inr date string "Invalid isoformat string" in
  let quoted := fun s : string => ("'" ++ s ++ "'")%string in
  let in_order := fun items : list yaml => seq 0 (List.length items) in
  let path := ["countries"; "norway"] in
  let listing :=
    [(["countries"; "norway"; "a.yaml"],
      Parsed (YMap [(YStr "divisions",
        YList [YMap [(YStr "id", YStr "N"); (YStr "parent", YBool false)]])]))] in
  main iso quoted quoted in_order path (Some listing)
    = Ret (mkRun 0 ["OK: 1 divisions validated in countries/norway"] []).
Proof.
  intros iso quoted in_order path listing.
  apply (proj2 (proj1 (main_succeeds_iff iso quoted quoted in_order path listing
                         _ _ eq_refl))).
  repeat split; reflexivity.
Defined.
